(** * Staging pipeline of [src/api/add.js]

    A shallow embedding of [add], [addToIndex] and [expandGlobs], and the
    properties of the staging pipeline proved (or refuted) on it.

    Conventions of the model.

    - A JavaScript string is a [string]; a [Buffer] is a [list byte].
    - Every function that add.js imports ([join], [GitIgnoreManager.isIgnored],
      the [FileSystem] methods, [_writeObject]) and the [RegExp] built-in are
      fields of the record [Collaborators]: each call either returns a value
      or throws.  They are functions of their arguments: the working tree is
      not changed by staging.
    - An [async] function is modelled by the way its promise settles
      ([Fulfilled] or [Rejected]) together with the list of the calls that
      its run makes and that are visible outside ([event]), in the order in
      which they are made.
    - Tasks dispatched together ([filepath.map(async ...)] on line 61,
      [children.map(...)] on line 76) run concurrently.  Each task makes its
      own calls in its own order; how the calls of different tasks
      interleave, and which rejection [Promise.all] sees first, depends on
      when the collaborators complete.  Both are given with the collaborators
      ([schedule], [first]).  Every interleaving that keeps the order of
      each task, and every choice of the first rejection, is the one of some
      collaborators: this is all that the code can do, and more, so what
      holds for all collaborators holds for every run of the code.  The
      record of a run holds all the calls that the run starts, also those
      that the children of a directory make after [Promise.all] has
      rejected.
    - Directory recursion is bounded by a fuel argument; [None] means that
      the fuel did not suffice, and is never a result of the program. *)

From Stdlib Require Import List String Ascii Bool Arith Lia Permutation.
From Stdlib Require Import Strings.Byte.
Import ListNotations.
Local Open Scope string_scope.
Local Open Scope list_scope.
Set Warnings "-register-all".

(** ** JavaScript string and array primitives used by [expandGlobs] *)

Module JS.

(** [s.includes(c)] for a one-character needle. *)
Fixpoint includes (c : ascii) (s : string) : bool :=
  match s with
  | EmptyString => false
  | String a r => Ascii.eqb a c || includes c r
  end.

(** [s.split(sep)] for a one-character separator: never the empty array. *)
Fixpoint split (sep : ascii) (s : string) : list string :=
  match s with
  | EmptyString => [EmptyString]
  | String a r =>
      if Ascii.eqb a sep then EmptyString :: split sep r
      else match split sep r with
           | [] => [String a EmptyString]
           | h :: t => String a h :: t
           end
  end.

(** [a.slice(0, -1)]: all but the last element. *)
Definition slice_init {A} (a : list A) : list A := firstn (List.length a - 1) a.

(** [a.slice(-1)]: the last element, as an array. *)
Definition slice_last {A} (a : list A) : list A := skipn (List.length a - 1) a.

(** [a.join(sep)]. *)
Definition join (sep : string) (a : list string) : string := String.concat sep a.

(** [s.replace(/c/g, by)] for a one-character pattern [c]. *)
Fixpoint replace_all (c : ascii) (by_ : string) (s : string) : string :=
  match s with
  | EmptyString => EmptyString
  | String a r =>
      if Ascii.eqb a c then (by_ ++ replace_all c by_ r)%string
      else String a (replace_all c by_ r)
  end.

End JS.

(** ** Values and errors *)

(** A call into a collaborator returns or throws. *)
Inductive res (A : Type) : Type :=
| Ok (a : A)
| Throw (why : string).
Arguments Ok {A} a.
Arguments Throw {A} why.

(** The values that flow through [addToIndex] as [currentFilepath]: a string,
    or the promise returned by the [async] callback of [expandGlobs], which
    carries the way it settles. *)
Inductive jsval : Type :=
| JStr (s : string)
| JPromise (r : res (list string)).

Definition bytes := list byte.

Inductive fileKind := KFile | KDirectory | KSymbolicLink | KOther.

(** The result of [fs.lstat]: the kind drives the branches; the rest of the
    metadata is carried to the index unchanged. *)
Record Stats := { kind : fileKind; meta : nat }.

Definition isDirectory (s : Stats) : bool :=
  match kind s with KDirectory => true | _ => false end.

Definition isSymbolicLink (s : Stats) : bool :=
  match kind s with KSymbolicLink => true | _ => false end.

Inductive gitError : Type :=
| NotFoundError (what : jsval)
| MultipleGitError (errors : list gitError)
| MissingParameterError (parameter : string)
| ForeignError (why : string).

(** How a promise settles. *)
Inductive settled (A : Type) : Type :=
| Fulfilled (a : A)
| Rejected (e : gitError).
Arguments Fulfilled {A} a.
Arguments Rejected {A} e.

(** The calls that leave the pipeline. *)
Inductive event : Type :=
| EvIsIgnored (filepath : jsval)
| EvLstat (path : string)
| EvReaddir (path : string)
| EvRead (path : string)
| EvReadlink (path : string)
| EvWriteObject (object : bytes)
| EvInsert (filepath : jsval) (stats : Stats) (oid : string)
| EvWriteIndex.


Record Collaborators := {
  join : jsval -> jsval -> res string;
  isIgnored : jsval -> res bool;
  lstat : string -> res (option Stats);
  readdir : string -> res (list string);
  read : string -> res (option bytes);
  readlink : string -> res bytes;
  writeObject : bytes -> res string;
  RegExp : string -> res (string -> bool);
  openIndex : res unit;
  commitIndex : res unit;
  (** When the collaborators complete.  [schedule] is given the calls that
      each of the tasks running together makes, and says which task makes
      the next call, step by step. *)
  schedule : list (list event) -> list nat;
  (** [first] is given the rejections of the promises handed to
      [Promise.all], in the order of the array, and says which of them comes
      first in time. *)
  first : list gitError -> nat
}.

(** Modelled from the spec: [posixifyPathBuffer] is not under src; the spec
    says that the link target is normalized to forward-slash form: every
    backslash byte becomes a slash. *)
Definition posixifyPathBuffer (b : bytes) : bytes :=
  map (fun x => if Byte.eqb x "\"%byte then "/"%byte else x) b.

(** ** [expandGlobs] *)

Section Expand.

Variable E : Collaborators.

Definition globDirectory (glob : string) : string :=
  JS.join "/" (JS.slice_init (JS.split "/" glob)).

Definition globFile (glob : string) : string :=
  JS.join "/" (JS.slice_last (JS.split "/" glob)).

(** The source handed to [new RegExp]. *)
Definition globSource (file : string) : string :=
  ("^" ++ JS.replace_all "?" "." (JS.replace_all "*" ".*" file) ++ "$")%string.

(** [files.map(file => join(dir, file))]: the first throw ends the map. *)
Fixpoint joinAll (d : string) (files : list string) : res (list string) :=
  match files with
  | [] => Ok []
  | f :: fs =>
      match join E (JStr d) (JStr f) with
      | Throw w => Throw w
      | Ok p => match joinAll d fs with
                | Throw w => Throw w
                | Ok ps => Ok (p :: ps)
                end
      end
  end.

(** The [async] callback of [expandGlobs] (lines 117-136): how its promise
    settles, and the calls it made. *)
Definition expandOne (currentFilePath : string) : res (list string) * list event :=
  if JS.includes "*" currentFilePath then
    let glob := currentFilePath in
    match RegExp E (globSource (globFile glob)) with
    | Throw w => (Throw w, [])
    | Ok test =>
        match readdir E (globDirectory glob) with
        | Throw w => (Throw w, [EvReaddir (globDirectory glob)])
        | Ok globFiles =>
            (joinAll (globDirectory glob) (filter test globFiles),
             [EvReaddir (globDirectory glob)])
        end
    end
  else (Ok [currentFilePath], []).

(** [filepath.map(async ...).reduce((a, b) => a.concat(b), [])].  The
    callback is [async], so [map] yields one promise per path, whatever the
    callback returns.  [concat] spreads an argument only if it is an array
    (or marked spreadable); a promise is neither, so each promise is
    appended as one element.  Nothing awaits the promises: there is no
    [Promise.all], and the [await] in [addToIndex] unwraps only the promise
    of the array.  The result is the array of the promises themselves. *)
Definition expandGlobs (filepath : list string) : list jsval * list event :=
  let calls := map expandOne filepath in
  (fold_left (fun a b => a ++ [b]) (map (fun c => JPromise (fst c)) calls) [],
   List.concat (map snd calls)).

End Expand.

(** ** Settling promises and recording calls *)

(** An asynchronous computation: how it settles and the calls it made, or
    [None] when the fuel ran out. *)
Definition M (A : Type) : Type := option (settled A * list event).

Definition ret {A} (a : A) : M A := Some (Fulfilled a, []).

Definition throw {A} (e : gitError) : M A := Some (Rejected e, []).

Definition bind {A B} (m : M A) (k : A -> M B) : M B :=
  match m with
  | None => None
  | Some (Rejected e, t) => Some (Rejected e, t)
  | Some (Fulfilled a, t) =>
      match k a with
      | None => None
      | Some (r, t') => Some (r, t ++ t')
      end
  end.

Notation "x <- m ;; k" := (bind m (fun x => k))
  (at level 61, m at next level, right associativity).

(** A call that is not recorded ([join], [new RegExp], the index file). *)
Definition pure {A} (r : res A) : M A :=
  match r with
  | Ok a => ret a
  | Throw w => throw (ForeignError w)
  end.

(** [await collaborator(...)], recorded as [ev]. *)
Definition call {A} (ev : event) (r : res A) : M A :=
  match r with
  | Ok a => Some (Fulfilled a, [ev])
  | Throw w => Some (Rejected (ForeignError w), [ev])
  end.

Definition emit (evs : list event) : M unit := Some (Fulfilled tt, evs).

Definition await {A} (p : settled A) : M A := Some (p, []).

(** [settled.filter(s => s.status === 'rejected').map(s => s.reason)] *)
Fixpoint reasons {A} (ps : list (settled A)) : list gitError :=
  match ps with
  | [] => []
  | Rejected e :: r => e :: reasons r
  | Fulfilled _ :: r => reasons r
  end.

(** The values of the promises that are fulfilled. *)
Fixpoint fulfilments {A} (ps : list (settled A)) : list A :=
  match ps with
  | [] => []
  | Fulfilled a :: r => a :: fulfilments r
  | Rejected _ :: r => fulfilments r
  end.

(** [settled.filter(s => s.status === 'fulfilled' && s.value).map(s => s.value)];
    a task returns [undefined], which is not truthy. *)
Definition truthy (v : unit) : bool := false.

Fixpoint values (ps : list (settled unit)) : list unit :=
  match ps with
  | [] => []
  | Fulfilled v :: r => if truthy v then v :: values r else values r
  | Rejected _ :: r => values r
  end.

(** *** Tasks that run concurrently *)

(** The next call of task [i] and what is left of the tasks; [None] when
    there is no task [i] or when it has made all its calls. *)
Fixpoint takeAt (i : nat) (ts : list (list event)) {struct ts}
  : option (event * list (list event)) :=
  match ts with
  | [] => None
  | t :: rest =>
      match i with
      | 0 => match t with
             | [] => None
             | ev :: t' => Some (ev, t' :: rest)
             end
      | S j => match takeAt j rest with
               | None => None
               | Some (ev, rest') => Some (ev, t :: rest')
               end
      end
  end.

(** The record of tasks that run together: the calls of every task, those of
    one task in its own order, those of different tasks in the order that
    [order] gives; whatever [order] leaves over follows task by task. *)
Fixpoint interleave (order : list nat) (ts : list (list event)) : list event :=
  match order with
  | [] => List.concat ts
  | i :: order' =>
      match takeAt i ts with
      | Some (ev, ts') => ev :: interleave order' ts'
      | None => interleave order' ts
      end
  end.

(** How each of the tasks ends; [None] when one of them runs out of fuel. *)
Fixpoint settleAll {A} (tasks : list (M A)) : option (list (settled A * list event)) :=
  match tasks with
  | [] => Some []
  | None :: _ => None
  | Some rt :: rest =>
      match settleAll rest with
      | None => None
      | Some rts => Some (rt :: rts)
      end
  end.

(** The promises of tasks that an [array.map] has dispatched, once all of
    them have settled: every task has been started before any of them
    settles, each one runs to its end whatever the others do, and the
    outcomes are kept in the order of the array. *)
Definition concurrently (E : Collaborators) {A} (tasks : list (M A))
  : M (list (settled A)) :=
  match settleAll tasks with
  | None => None
  | Some rts =>
      Some (Fulfilled (map fst rts),
            interleave (schedule E (map snd rts)) (map snd rts))
  end.

(** [await Promise.allSettled(promises)] (line 97), [promises] being the
    tasks that line 61 has dispatched: it waits for all of them and never
    rejects. *)
Definition allSettled (E : Collaborators) {A} (tasks : list (M A))
  : M (list (settled A)) :=
  concurrently E tasks.

(** [Promise.all] (line 86): the values if all the promises are fulfilled,
    else the rejection that comes first in time, which is one of the
    rejections (a position outside of them stands for the first of the
    array). *)
Definition promiseAll (E : Collaborators) {A} (ps : list (settled A))
  : settled (list A) :=
  match reasons ps with
  | [] => Fulfilled (fulfilments ps)
  | e :: es => Rejected (nth (first E (e :: es)) (e :: es) e)
  end.

(** ** [addToIndex] *)

Section Stage.

Variable E : Collaborators.
Variable dir : string.
Variable force : bool.

(** The recursive call [addToIndex({ ..., filepath, index, force })], with
    the same collaborators, index and flag. *)
Variable addToIndex_rec : list string -> M (list unit).

(** The [join(currentFilepath, child)] of lines 76-85, child by child: the
    paths joined until [join] throws, and what it throws if it does. *)
Fixpoint joinChildren (cur : jsval) (children : list string)
  : list string * option string :=
  match children with
  | [] => ([], None)
  | child :: rest =>
      match join E cur (JStr child) with
      | Throw w => ([], Some w)
      | Ok p => let (ps, thrown) := joinChildren cur rest in (p :: ps, thrown)
      end
  end.

(** [children.map(child => addToIndex({ ..., filepath: [join(cur, child)] }))]:
    one recursive call per child, all of them running together.  A throw of
    [join] ends the [map], and with it the task; the calls dispatched before
    it keep running. *)
Definition dispatchChildren (cur : jsval) (children : list string)
  : M (list (settled (list unit))) :=
  let (paths, thrown) := joinChildren cur children in
  promises <- concurrently E (map (fun p => addToIndex_rec [p]) paths) ;;
  match thrown with
  | Some w => throw (ForeignError w)
  | None => ret promises
  end.

(** Lines 88-93: the branch of a path that is not a directory.  [p] is
    [join(dir, currentFilepath)]. *)
Definition stageBlob (cur : jsval) (p : string) (stats : Stats) : M unit :=
  object <- (if isSymbolicLink stats
             then target <- call (EvReadlink p) (readlink E p) ;;
                  ret (Some (posixifyPathBuffer target))
             else call (EvRead p) (read E p)) ;;
  match object with
  | None => throw (NotFoundError cur)
  | Some object =>
      oid <- call (EvWriteObject object) (writeObject E object) ;;
      emit [EvInsert cur stats oid]
  end.

(** Lines 71-94.  [join] is a function, so [join(dir, currentFilepath)] is
    taken once. *)
Definition stageStat (cur : jsval) : M unit :=
  p <- pure (join E (JStr dir) cur) ;;
  stats <- call (EvLstat p) (lstat E p) ;;
  match stats with
  | None => throw (NotFoundError cur)
  | Some stats =>
      if isDirectory stats then
        children <- call (EvReaddir p) (readdir E p) ;;
        promises <- dispatchChildren cur children ;;
        _ <- await (promiseAll E promises) ;;
        ret tt
      else stageBlob cur p stats
  end.

(** Lines 61-95: the task of one element of the expanded array. *)
Definition stagePath (currentFilepath : jsval) : M unit :=
  if negb force then
    ignored <- call (EvIsIgnored currentFilepath) (isIgnored E currentFilepath) ;;
    if (ignored : bool) then ret tt else stageStat currentFilepath
  else stageStat currentFilepath.

(** Lines 97-112: the outcome of the call from the settled tasks. *)
Definition outcome (settledPromises : list (settled unit)) : M (list unit) :=
  let rejectedPromises := reasons settledPromises in
  if Nat.ltb 1 (List.length rejectedPromises) then
    throw (MultipleGitError rejectedPromises)
  else if Nat.eqb (List.length rejectedPromises) 1 then
    throw (hd (ForeignError "undefined") rejectedPromises)
  else ret (values settledPromises).

(** Lines 61-112: the coordinator, from the expanded array on. *)
Definition stageAll (expanded : list jsval) : M (list unit) :=
  settledPromises <- allSettled E (map stagePath expanded) ;;
  outcome settledPromises.

(** Lines 60-112.  Line 59 is [toArray] below: [add] passes a string or an
    array, the recursive calls pass arrays.  The calls of [expandGlobs] are
    made before line 60 returns, so before any task is dispatched. *)
Definition addToIndexBody (filepath : list string) : M (list unit) :=
  _ <- emit (snd (expandGlobs E filepath)) ;;
  stageAll (fst (expandGlobs E filepath)).

End Stage.

Fixpoint addToIndex (E : Collaborators) (dir : string) (force : bool)
  (fuel : nat) (filepath : list string) : M (list unit) :=
  match fuel with
  | 0 => None
  | S n => addToIndexBody E dir force (addToIndex E dir force n) filepath
  end.

(** ** [add] *)

(** [filepath]: a string or an array of strings. *)
Inductive filepathArg :=
| One (path : string)
| Many (paths : list string).

(** [Array.isArray(filepath) ? filepath : [filepath]] *)
Definition toArray (f : filepathArg) : list string :=
  match f with
  | One p => [p]
  | Many ps => ps
  end.

(** The properties of the argument object of [add], as the caller passes
    them; an absent property is [None]. *)
Record addArgs := {
  fs : option Collaborators;
  dir : option string;
  gitdir : option string;
  filepath : option filepathArg;
  force : bool
}.

(** A thrown error object and its [caller] property. *)
Record thrown := { error : gitError; caller : option string }.

Inductive addResult :=
| Resolved
| Threw (err : thrown).

(** Modelled from the spec: [assertParameter] is not under src; a required
    parameter that is absent surfaces at once as a missing-argument error. *)
Definition assertParameter {A} (name : string) (value : option A) : M A :=
  match value with
  | None => throw (MissingParameterError name)
  | Some a => ret a
  end.

(** Modelled from the spec: [GitIndexManager.acquire] is not under src; it
    gives the callback access to the index handle, commits when the callback
    completes without throwing and commits nothing when it fails. *)
Definition acquire (E : Collaborators) {A} (callback : M A) : M A :=
  _ <- pure (openIndex E) ;;
  result <- callback ;;
  _ <- call EvWriteIndex (commitIndex E) ;;
  ret result.

(** Line 36: the default [gitdir = join(dir, '.git')].  It is evaluated when
    the caller passes no [gitdir], while the parameters are bound, so before
    the [try] of line 41 is entered.  [joinDotGit] is the imported [join] at
    [(dir, '.git')], for a [dir] that may be absent. *)
Definition gitdirParameter (joinDotGit : option string -> res string)
  (args : addArgs) : res string :=
  match gitdir args with
  | Some g => Ok g
  | None => joinDotGit (dir args)
  end.

(** Lines 33-55.  What the default of [gitdir] throws rejects the promise of
    [add] as it is; what the body throws passes through the [catch], which
    sets [caller]. *)
Definition add (joinDotGit : option string -> res string) (fuel : nat)
  (args : addArgs) : option (addResult * list event) :=
  match gitdirParameter joinDotGit args with
  | Throw w => Some (Threw {| error := ForeignError w; caller := None |}, [])
  | Ok g =>
      let body :=
        E <- assertParameter "fs" (fs args) ;;
        d <- assertParameter "dir" (dir args) ;;
        _ <- assertParameter "gitdir" (Some g) ;;
        f <- assertParameter "filepath" (filepath args) ;;
        acquire E (addToIndex E d (force args) fuel (toArray f)) in
      match body with
      | None => None
      | Some (Fulfilled _, t) => Some (Resolved, t)
      | Some (Rejected err, t) =>
          Some (Threw {| error := err; caller := Some "git.add" |}, t)
      end
  end.

(** ** The regular expressions that [expandGlobs] builds

    The sources built from a file pattern without other special characters
    are of the form [^ ... $] over literal characters, [.] and [.*].  This
    fragment is given its JavaScript meaning; another source is outside the
    model. *)

Module Regex.

Inductive token :=
| Lit (c : ascii)      (* the character itself *)
| AnyChar              (* [.] *)
| AnyStar.             (* [.*] *)

(** The syntax characters of a pattern. *)
Definition special (c : ascii) : bool :=
  JS.includes c "\^$.*+?()[]{}|".

(** The body up to the closing [$]. *)
Fixpoint parseBody (s : string) : option (list token) :=
  match s with
  | EmptyString => None
  | String c r =>
      if Ascii.eqb c "$" then
        match r with EmptyString => Some [] | _ => None end
      else if Ascii.eqb c "." then
        match r with
        | String c' r' =>
            if Ascii.eqb c' "*" then option_map (cons AnyStar) (parseBody r')
            else option_map (cons AnyChar) (parseBody r)
        | EmptyString => None
        end
      else if special c then None
      else option_map (cons (Lit c)) (parseBody r)
  end.

Definition parse (source : string) : option (list token) :=
  match source with
  | String c r => if Ascii.eqb c "^" then parseBody r else None
  | EmptyString => None
  end.

(** [.] matches any character but a line terminator. *)
Definition lineTerminator (c : ascii) : bool :=
  Ascii.eqb c "010" || Ascii.eqb c "013".

(** Whether the tokens match the whole of [s]. *)
Fixpoint matches (r : list token) (s : string) : bool :=
  match r with
  | [] => match s with EmptyString => true | _ => false end
  | Lit c :: r' =>
      match s with
      | String a s' => Ascii.eqb a c && matches r' s'
      | EmptyString => false
      end
  | AnyChar :: r' =>
      match s with
      | String a s' => negb (lineTerminator a) && matches r' s'
      | EmptyString => false
      end
  | AnyStar :: r' =>
      (fix star (s : string) : bool :=
         matches r' s ||
         match s with
         | String a s' => negb (lineTerminator a) && star s'
         | EmptyString => false
         end) s
  end.

(** [new RegExp(source)] and its [test] method, on the fragment. *)
Definition RegExp (source : string) : res (string -> bool) :=
  match parse source with
  | Some r => Ok (matches r)
  | None => Throw "RegExp: source outside the modelled fragment"
  end.

End Regex.

(** ** Wildcard patterns, read directly

    [wildcard one ok pattern name]: [*] stands for any run of characters
    accepted by [ok], a character accepted by [one] stands for a single
    character accepted by [ok], any other character for itself. *)

Fixpoint wildcard (one ok : ascii -> bool) (pattern name : string) : bool :=
  match pattern with
  | EmptyString => match name with EmptyString => true | _ => false end
  | String c pattern' =>
      if Ascii.eqb c "*" then
        (fix star (name : string) : bool :=
           wildcard one ok pattern' name ||
           match name with
           | String a name' => ok a && star name'
           | EmptyString => false
           end) name
      else
        match name with
        | String a name' =>
            (if one c then ok a else Ascii.eqb a c) && wildcard one ok pattern' name'
        | EmptyString => false
        end
  end.

(** The matcher of the specification: every character other than [*] and [?]
    is matched literally, [*] is zero or more characters, [?] exactly one. *)
Definition specGlobMatch : string -> string -> bool :=
  wildcard (fun c => Ascii.eqb c "?") (fun _ => true).

(** What the pattern means once compiled by [expandGlobs]: [.] is a wildcard
    too, and no wildcard takes a line terminator. *)
Definition codeGlobMatch : string -> string -> bool :=
  wildcard (fun c => Ascii.eqb c "?" || Ascii.eqb c ".")
           (fun a => negb (Regex.lineTerminator a)).

(** The file patterns whose source is in the fragment. *)
Fixpoint plainPattern (pattern : string) : bool :=
  match pattern with
  | EmptyString => true
  | String c r =>
      (negb (Regex.special c) || Ascii.eqb c "*" || Ascii.eqb c "?" || Ascii.eqb c ".")
      && plainPattern r
  end.

(** ** A working tree to run the pipeline on *)

Module Tree.

(** Modelled from the spec: [join] is not under src; the spec says that
    it joins a directory component and a name.  Two strings are joined by
    a slash (an empty directory gives the name itself); an argument that
    is not a string is refused. *)
Definition joinPaths (a b : jsval) : res string :=
  match a, b with
  | JStr x, JStr y =>
      Ok (match x with EmptyString => y | _ => x ++ "/" ++ y end)%string
  | _, _ => Throw "TypeError: path is not a string"
  end.

(** [join(dir, '.git')]; an absent [dir] is not a string. *)
Definition dotGit (dir : option string) : res string :=
  match dir with
  | Some d => joinPaths (JStr d) (JStr ".git")
  | None => Throw "TypeError: path is not a string"
  end.

Fixpoint lookup {A} (k : string) (l : list (string * A)) : option A :=
  match l with
  | [] => None
  | (k', v) :: r => if String.eqb k k' then Some v else lookup k r
  end.

Definition file := {| kind := KFile; meta := 1 |}.
Definition directory := {| kind := KDirectory; meta := 2 |}.
Definition symlink := {| kind := KSymbolicLink; meta := 3 |}.
Definition device := {| kind := KOther; meta := 4 |}.

(** The working tree [/repo]: two regular files, a link to
    [../other.txt], a character device, a directory [d] with two
    unreadable files, a directory [dir], and, below the current directory,
    the listings that glob expansion reads. *)
Definition stats : list (string * Stats) :=
  [ ("/repo/a.txt", file); ("/repo/b.txt", file);
    ("/repo/link", symlink); ("/repo/dev", device);
    ("/repo/d", directory); ("/repo/d/x", file); ("/repo/d/y", file);
    ("/repo/dir", directory); ("/repo/dir/a.txt", file);
    ("/repo/dir/b.txt", file); ("/repo/dir/c.md", file) ].

Definition listings : list (string * list string) :=
  [ ("/repo/d", ["x"; "y"]);
    ("/repo/dir", ["a.txt"; "b.txt"; "c.md"]);
    ("dir", ["a.txt"; "b.txt"; "c.md"]);
    ("g", ["atxt"; "a.txt"]) ].

Definition contents : list (string * bytes) :=
  [ ("/repo/a.txt", list_byte_of_string "A");
    ("/repo/b.txt", list_byte_of_string "B");
    ("/repo/dev", list_byte_of_string "D");
    ("/repo/dir/a.txt", list_byte_of_string "A");
    ("/repo/dir/b.txt", list_byte_of_string "B");
    ("/repo/dir/c.md", list_byte_of_string "C") ].

Definition links : list (string * bytes) :=
  [ ("/repo/link", list_byte_of_string "../other.txt") ].

(** Every call completes at once: the tasks that run together make their
    calls in turn, one call each, as long as any of them has a call left. *)
Definition inTurn (ts : list (list event)) : list nat :=
  List.concat (repeat (seq 0 (List.length ts))
                      (list_max (map (@List.length event) ts))).

Definition env : Collaborators := {|
  join := joinPaths;
  isIgnored := fun v =>
    match v with
    | JStr s => Ok (String.eqb s "ignored.log")
    | JPromise _ => Throw "TypeError: filepath is not a string"
    end;
  lstat := fun p => Ok (lookup p stats);
  readdir := fun p =>
    Ok (match lookup p listings with Some l => l | None => [] end);
  read := fun p => Ok (lookup p contents);
  readlink := fun p =>
    match lookup p links with
    | Some b => Ok b
    | None => Throw "EINVAL"
    end;
  writeObject := fun object => Ok ("blob " ++ string_of_list_byte object)%string;
  RegExp := Regex.RegExp;
  openIndex := Ok tt;
  commitIndex := Ok tt;
  schedule := inTurn;
  first := fun _ => 0
|}.

End Tree.

(** ** Vocabulary of the properties *)

(** The call of the ignore filter that precedes the stat, if any. *)
Definition ignoreCheck (force : bool) (cur : jsval) : list event :=
  if force then [] else [EvIsIgnored cur].

(** The filter lets the path through: it is bypassed, or says no. *)
Definition passesFilter (E : Collaborators) (force : bool) (cur : jsval) : Prop :=
  force = false -> isIgnored E cur = Ok false.

(** What awaiting [Promise.all] leaves of the children's outcomes. *)
Definition joined (E : Collaborators) (ps : list (settled (list unit)))
  : settled unit :=
  match promiseAll E ps with
  | Fulfilled _ => Fulfilled tt
  | Rejected e => Rejected e
  end.

(** The runs of lines 74-94, for a path [cur] whose [join(dir, cur)] is [p]
    and whose stat is [stats]: how the task ends and the calls made. *)
Inductive branchRun (E : Collaborators) (rec : list string -> M (list unit))
  (cur : jsval) (p : string) (stats : Stats)
  : settled unit -> list event -> Prop :=
| br_readdir_throws w :
    isDirectory stats = true -> readdir E p = Throw w ->
    branchRun E rec cur p stats (Rejected (ForeignError w)) [EvReaddir p]
| br_directory children paths thrown rts :
    isDirectory stats = true -> readdir E p = Ok children ->
    joinChildren E cur children = (paths, thrown) ->
    Forall2 (fun q rt => rec [q] = Some rt) paths rts ->
    branchRun E rec cur p stats
      (match thrown with
       | Some w => Rejected (ForeignError w)
       | None => joined E (map fst rts)
       end)
      (EvReaddir p :: interleave (schedule E (map snd rts)) (map snd rts))
| br_readlink_throws w :
    isDirectory stats = false -> isSymbolicLink stats = true ->
    readlink E p = Throw w ->
    branchRun E rec cur p stats (Rejected (ForeignError w)) [EvReadlink p]
| br_link_unwritten target w :
    isDirectory stats = false -> isSymbolicLink stats = true ->
    readlink E p = Ok target ->
    writeObject E (posixifyPathBuffer target) = Throw w ->
    branchRun E rec cur p stats (Rejected (ForeignError w))
      [EvReadlink p; EvWriteObject (posixifyPathBuffer target)]
| br_link target oid :
    isDirectory stats = false -> isSymbolicLink stats = true ->
    readlink E p = Ok target ->
    writeObject E (posixifyPathBuffer target) = Ok oid ->
    branchRun E rec cur p stats (Fulfilled tt)
      [EvReadlink p; EvWriteObject (posixifyPathBuffer target);
       EvInsert cur stats oid]
| br_read_throws w :
    isDirectory stats = false -> isSymbolicLink stats = false ->
    read E p = Throw w ->
    branchRun E rec cur p stats (Rejected (ForeignError w)) [EvRead p]
| br_unreadable :
    isDirectory stats = false -> isSymbolicLink stats = false ->
    read E p = Ok None ->
    branchRun E rec cur p stats (Rejected (NotFoundError cur)) [EvRead p]
| br_file_unwritten object w :
    isDirectory stats = false -> isSymbolicLink stats = false ->
    read E p = Ok (Some object) -> writeObject E object = Throw w ->
    branchRun E rec cur p stats (Rejected (ForeignError w))
      [EvRead p; EvWriteObject object]
| br_file object oid :
    isDirectory stats = false -> isSymbolicLink stats = false ->
    read E p = Ok (Some object) -> writeObject E object = Ok oid ->
    branchRun E rec cur p stats (Fulfilled tt)
      [EvRead p; EvWriteObject object; EvInsert cur stats oid].

(** The runs of lines 71-94. *)
Inductive statRun (E : Collaborators) (dir : string)
  (rec : list string -> M (list unit)) (cur : jsval)
  : settled unit -> list event -> Prop :=
| sr_join_throws w :
    join E (JStr dir) cur = Throw w ->
    statRun E dir rec cur (Rejected (ForeignError w)) []
| sr_lstat_throws p w :
    join E (JStr dir) cur = Ok p -> lstat E p = Throw w ->
    statRun E dir rec cur (Rejected (ForeignError w)) [EvLstat p]
| sr_missing p :
    join E (JStr dir) cur = Ok p -> lstat E p = Ok None ->
    statRun E dir rec cur (Rejected (NotFoundError cur)) [EvLstat p]
| sr_branch p stats r t :
    join E (JStr dir) cur = Ok p -> lstat E p = Ok (Some stats) ->
    branchRun E rec cur p stats r t ->
    statRun E dir rec cur r (EvLstat p :: t).

(** The runs of the task of one element of the expanded array
    (lines 61-95). *)
Inductive taskRun (E : Collaborators) (dir : string) (force : bool)
  (rec : list string -> M (list unit)) (cur : jsval)
  : settled unit -> list event -> Prop :=
| tr_filter_throws w :
    force = false -> isIgnored E cur = Throw w ->
    taskRun E dir force rec cur (Rejected (ForeignError w)) [EvIsIgnored cur]
| tr_ignored :
    force = false -> isIgnored E cur = Ok true ->
    taskRun E dir force rec cur (Fulfilled tt) [EvIsIgnored cur]
| tr_passes r t :
    passesFilter E force cur -> statRun E dir rec cur r t ->
    taskRun E dir force rec cur r (ignoreCheck force cur ++ t).

(** The value is a promise, not a path string. *)
Definition isPromise (v : jsval) : Prop := exists r, v = JPromise r.

(** A NotFound error, if [e] is one, names a promise, not a path string. *)
Definition namesPromise (e : gitError) : Prop :=
  forall what, e = NotFoundError what -> isPromise what.

(** A NotFound error that names a path string. *)
Definition namesString (e : gitError) : bool :=
  match e with
  | NotFoundError (JStr _) => true
  | _ => false
  end.



(** The outcome of a call whose tasks failed with [es]. *)
Definition verdict (es : list gitError) : settled (list unit) :=
  match es with
  | [] => Fulfilled []
  | [e] => Rejected e
  | _ => Rejected (MultipleGitError es)
  end.

(** The token a pattern character is compiled to. *)
Definition tokenOf (c : ascii) : Regex.token :=
  if Ascii.eqb c "*" then Regex.AnyStar
  else if Ascii.eqb c "?" || Ascii.eqb c "." then Regex.AnyChar
  else Regex.Lit c.

Fixpoint tokens (pattern : string) : list Regex.token :=
  match pattern with
  | EmptyString => []
  | String c r => tokenOf c :: tokens r
  end.

(** The body of the source of a pattern. *)
Definition body (pattern : string) : string :=
  (JS.replace_all "?" "." (JS.replace_all "*" ".*" pattern) ++ "$")%string.

(** [m'] gives every result that [m] gives. *)
Definition refines {A} (m m' : M A) : Prop :=
  forall x, m = Some x -> m' = Some x.

(** The declarative reading of a wildcard pattern: [*] takes any run of
    characters accepted by [ok], a character accepted by [one] takes one
    character accepted by [ok], any other character takes itself. *)
Inductive GlobMatch (one ok : ascii -> bool) : string -> string -> Prop :=
| gm_end : GlobMatch one ok EmptyString EmptyString
| gm_star_none p n :
    GlobMatch one ok p n -> GlobMatch one ok (String "*" p) n
| gm_star_more p a n :
    ok a = true -> GlobMatch one ok (String "*" p) n ->
    GlobMatch one ok (String "*" p) (String a n)
| gm_char c p a n :
    Ascii.eqb c "*" = false ->
    (if one c then ok a else Ascii.eqb a c) = true ->
    GlobMatch one ok p n ->
    GlobMatch one ok (String c p) (String a n).

Fixpoint noLineTerminator (s : string) : bool :=
  match s with
  | EmptyString => true
  | String a r => negb (Regex.lineTerminator a) && noLineTerminator r
  end.

Definition notMultiple (e : gitError) : bool :=
  match e with
  | MultipleGitError _ => false
  | _ => true
  end.

(** The errors that a settled call reports, one by one. *)
Definition failures {A} (r : settled A) : list gitError :=
  match r with
  | Fulfilled _ => []
  | Rejected (MultipleGitError es) => es
  | Rejected e => [e]
  end.

(** Every call of a staging run with all that led to it: the element [cur]
    of an expanded array that it was made for, which is one of [from],
    passed the ignore filter, its stat chose the branch, and what is
    written is what was read there. *)
Inductive justified (E : Collaborators) (dir : string) (force : bool)
  (from : jsval -> Prop) : event -> Prop :=
| ju_isIgnored cur :
    from cur -> force = false -> justified E dir force from (EvIsIgnored cur)
| ju_lstat cur p :
    from cur -> passesFilter E force cur -> join E (JStr dir) cur = Ok p ->
    justified E dir force from (EvLstat p)
| ju_readdir cur p stats :
    from cur -> passesFilter E force cur -> join E (JStr dir) cur = Ok p ->
    lstat E p = Ok (Some stats) -> isDirectory stats = true ->
    justified E dir force from (EvReaddir p)
| ju_glob glob :
    JS.includes "*" glob = true ->
    justified E dir force from (EvReaddir (globDirectory glob))
| ju_read cur p stats :
    from cur -> passesFilter E force cur -> join E (JStr dir) cur = Ok p ->
    lstat E p = Ok (Some stats) ->
    isDirectory stats = false -> isSymbolicLink stats = false ->
    justified E dir force from (EvRead p)
| ju_readlink cur p stats :
    from cur -> passesFilter E force cur -> join E (JStr dir) cur = Ok p ->
    lstat E p = Ok (Some stats) ->
    isDirectory stats = false -> isSymbolicLink stats = true ->
    justified E dir force from (EvReadlink p)
| ju_write_link cur p stats target :
    from cur -> passesFilter E force cur -> join E (JStr dir) cur = Ok p ->
    lstat E p = Ok (Some stats) ->
    isDirectory stats = false -> isSymbolicLink stats = true ->
    readlink E p = Ok target ->
    justified E dir force from (EvWriteObject (posixifyPathBuffer target))
| ju_write_file cur p stats object :
    from cur -> passesFilter E force cur -> join E (JStr dir) cur = Ok p ->
    lstat E p = Ok (Some stats) ->
    isDirectory stats = false -> isSymbolicLink stats = false ->
    read E p = Ok (Some object) ->
    justified E dir force from (EvWriteObject object)
| ju_insert_link cur p stats target oid :
    from cur -> passesFilter E force cur -> join E (JStr dir) cur = Ok p ->
    lstat E p = Ok (Some stats) ->
    isDirectory stats = false -> isSymbolicLink stats = true ->
    readlink E p = Ok target ->
    writeObject E (posixifyPathBuffer target) = Ok oid ->
    justified E dir force from (EvInsert cur stats oid)
| ju_insert_file cur p stats object oid :
    from cur -> passesFilter E force cur -> join E (JStr dir) cur = Ok p ->
    lstat E p = Ok (Some stats) ->
    isDirectory stats = false -> isSymbolicLink stats = false ->
    read E p = Ok (Some object) ->
    writeObject E object = Ok oid ->
    justified E dir force from (EvInsert cur stats oid).

(** Any element of an array. *)
Definition anyValue (v : jsval) : Prop := True.

(** [join] takes strings only: it throws when its second argument is a
    promise. *)
Definition refusesPromises (E : Collaborators) : Prop :=
  forall d r, exists w, join E (JStr d) (JPromise r) = Throw w.

Definition isFilterCall (ev : event) : bool :=
  match ev with
  | EvIsIgnored _ => true
  | _ => false
  end.

(** A call of the ignore filter about a path string. *)
Definition asksAboutString (ev : event) : bool :=
  match ev with
  | EvIsIgnored (JStr _) => true
  | _ => false
  end.

(** An index entry whose path is a path string. *)
Definition keyedByString (ev : event) : bool :=
  match ev with
  | EvInsert (JStr _) _ _ => true
  | _ => false
  end.

(** * Properties *)

(** ** The monad *)

Lemma bind_inv {A B} (m : M A) (k : A -> M B) r t :
  bind m k = Some (r, t) ->
  (exists e, m = Some (Rejected e, t) /\ r = Rejected e) \/
  (exists a t1 t2,
      m = Some (Fulfilled a, t1) /\ k a = Some (r, t2) /\ t = t1 ++ t2).
Proof.
  unfold bind. destruct m as [[[a|e] t1]|]; try discriminate.
  - destruct (k a) as [[r2 t2]|] eqn:Hk; try discriminate.
    intros H. inversion H; subst. right. exists a, t1, t2. auto.
  - intros H. inversion H; subst. left. exists e. auto.
Qed.

Lemma pure_inv {A} (r : res A) s t :
  pure r = Some (s, t) ->
  t = [] /\ ((exists a, r = Ok a /\ s = Fulfilled a) \/
             (exists w, r = Throw w /\ s = Rejected (ForeignError w))).
Proof.
  destruct r; simpl; intros H; inversion H; subst; split; eauto.
Qed.

Lemma call_inv {A} ev (r : res A) s t :
  call ev r = Some (s, t) ->
  t = [ev] /\ ((exists a, r = Ok a /\ s = Fulfilled a) \/
               (exists w, r = Throw w /\ s = Rejected (ForeignError w))).
Proof.
  destruct r; simpl; intros H; inversion H; subst; split; eauto.
Qed.

(** ** [expandGlobs] *)

Lemma reduce_concat {A} (l acc : list A) :
  fold_left (fun a b => a ++ [b]) l acc = acc ++ l.
Proof.
  revert acc. induction l as [|x l IH]; intros acc; simpl.
  - now rewrite app_nil_r.
  - rewrite IH, <- app_assoc. reflexivity.
Qed.

(** One promise per requested path, in the order of the request. *)
Lemma expandGlobs_promises (E : Collaborators) (filepath : list string) :
  fst (expandGlobs E filepath)
  = map (fun p => JPromise (fst (expandOne E p))) filepath.
Proof.
  unfold expandGlobs. simpl. rewrite reduce_concat. simpl.
  now rewrite map_map.
Qed.

Lemma expandOne_no_star (E : Collaborators) (p : string) :
  JS.includes "*" p = false -> expandOne E p = (Ok [p], []).
Proof. unfold expandOne. now intros ->. Qed.

Lemma expandOne_calls E p :
  snd (expandOne E p) = []
  \/ (JS.includes "*" p = true /\ snd (expandOne E p) = [EvReaddir (globDirectory p)]).
Proof.
  unfold expandOne. destruct (JS.includes "*" p); [|now left].
  destruct (RegExp E _); [|now left].
  destruct (readdir E _); right; split; reflexivity.
Qed.

Lemma expandGlobs_lists (E : Collaborators) (filepath : list string) :
  Forall (fun ev => exists glob,
              In glob filepath /\ JS.includes "*" glob = true
              /\ ev = EvReaddir (globDirectory glob))
         (snd (expandGlobs E filepath)).
Proof.
  unfold expandGlobs. simpl. rewrite map_map.
  induction filepath as [|p fp IH]; simpl; [constructor|].
  apply Forall_app. split.
  - destruct (expandOne_calls E p) as [->|[Hs ->]]; [constructor|].
    repeat constructor. exists p. simpl. auto.
  - eapply Forall_impl; [|exact IH].
    intros ev (glob & Hin & Hs & ->). exists glob. simpl. auto.
Qed.

Lemma joinAll_inv E d files ps :
  joinAll E d files = Ok ps ->
  Forall2 (fun f p => join E (JStr d) (JStr f) = Ok p) files ps.
Proof.
  revert ps. induction files as [|f files IH]; simpl; intros ps H.
  - inversion H. constructor.
  - destruct (join E (JStr d) (JStr f)) as [p|] eqn:Hj; [|discriminate].
    destruct (joinAll E d files) as [ps'|]; [|discriminate].
    inversion H; subst. constructor; [exact Hj | now apply IH].
Qed.

Lemma link_not_directory (stats : Stats) :
  isSymbolicLink stats = true -> isDirectory stats = false.
Proof. unfold isSymbolicLink, isDirectory. now destruct (kind stats). Qed.

Lemma posixify_no_backslash (b : bytes) : ~ In "\"%byte (posixifyPathBuffer b).
Proof.
  unfold posixifyPathBuffer. rewrite in_map_iff. intros (x & Hx & _).
  destruct (Byte.eqb x "\") eqn:Hb; [discriminate|].
  subst x. discriminate.
Qed.

(** ** Tasks that run concurrently *)

Lemma takeAt_perm i ts ev ts' :
  takeAt i ts = Some (ev, ts') ->
  Permutation (List.concat ts) (ev :: List.concat ts').
Proof.
  revert i ev ts'. induction ts as [|t rest IH]; intros i ev ts' H; simpl in H.
  - discriminate.
  - destruct i as [|j].
    + destruct t as [|e t]; [discriminate|]. inversion H; subst. reflexivity.
    + destruct (takeAt j rest) as [[e rest']|] eqn:Hj; [|discriminate].
      inversion H; subst. simpl.
      apply Permutation_trans with (t ++ ev :: List.concat rest').
      * apply Permutation_app_head. now apply (IH j).
      * symmetry. apply Permutation_middle.
Qed.

(** Whatever the order, the record of tasks that run together holds the
    calls of all of them, each as often as it was made. *)
Lemma interleave_perm order ts :
  Permutation (interleave order ts) (List.concat ts).
Proof.
  revert ts. induction order as [|i order IH]; intros ts; simpl; [reflexivity|].
  destruct (takeAt i ts) as [[ev ts']|] eqn:H; [|apply IH].
  apply Permutation_trans with (ev :: List.concat ts').
  - apply perm_skip, IH.
  - symmetry. eapply takeAt_perm; eassumption.
Qed.

Lemma interleave_In order ts ev :
  In ev (interleave order ts) <-> exists t, In t ts /\ In ev t.
Proof.
  rewrite <- in_concat. split; intros H.
  - eapply Permutation_in; [apply interleave_perm | exact H].
  - eapply Permutation_in; [symmetry; apply interleave_perm | exact H].
Qed.

Lemma Forall_interleave (P : event -> Prop) order ts :
  Forall (Forall P) ts -> Forall P (interleave order ts).
Proof.
  intros H. rewrite Forall_forall. intros ev Hin.
  apply interleave_In in Hin. destruct Hin as (t & Ht & Hev).
  rewrite Forall_forall in H. specialize (H _ Ht).
  rewrite Forall_forall in H. auto.
Qed.

(** A task that runs alone makes its calls in its own order. *)
Lemma interleave_alone order t : interleave order [t] = t.
Proof.
  revert t. induction order as [|i order IH]; intros t; simpl.
  - apply app_nil_r.
  - destruct i as [|j]; [destruct t as [|ev t]|]; simpl; rewrite ?IH; reflexivity.
Qed.

Lemma Forall2_map_left {A B C} (f : A -> B) (R : B -> C -> Prop) l l' :
  Forall2 R (map f l) l' <-> Forall2 (fun a c => R (f a) c) l l'.
Proof.
  split; revert l'; induction l as [|a l IH]; intros l' H; inversion H; subst;
    constructor; auto.
Qed.

Lemma Forall2_in_r {A B} (R : A -> B -> Prop) l l' b :
  Forall2 R l l' -> In b l' -> exists a, In a l /\ R a b.
Proof.
  induction 1 as [|a b' l l' HR _ IH]; simpl; [tauto|].
  intros [->|Hin]; [eauto|]. destruct (IH Hin) as (a' & Ha & HR'). eauto.
Qed.

Lemma settleAll_inv {A} (tasks : list (M A)) rts :
  settleAll tasks = Some rts ->
  Forall2 (fun task rt => task = Some rt) tasks rts.
Proof.
  revert rts. induction tasks as [|task tasks IH]; simpl; intros rts H.
  - inversion H. constructor.
  - destruct task as [rt|]; [|discriminate].
    destruct (settleAll tasks) as [rts'|]; [|discriminate].
    inversion H; subst. constructor; auto.
Qed.

Lemma settleAll_run {A} (tasks : list (M A)) rts :
  Forall2 (fun task rt => task = Some rt) tasks rts ->
  settleAll tasks = Some rts.
Proof.
  induction 1 as [|task rt tasks rts Ht _ IH]; simpl; [reflexivity|].
  subst task. now rewrite IH.
Qed.

Lemma concurrently_inv {A} E (tasks : list (M A)) r t :
  concurrently E tasks = Some (r, t) ->
  exists rts,
    Forall2 (fun task rt => task = Some rt) tasks rts
    /\ r = Fulfilled (map fst rts)
    /\ t = interleave (schedule E (map snd rts)) (map snd rts).
Proof.
  unfold concurrently. destruct (settleAll tasks) as [rts|] eqn:H; [|discriminate].
  intros Hx. inversion Hx; subst. exists rts.
  split; [now apply settleAll_inv | split; reflexivity].
Qed.

Lemma concurrently_run {A} E (tasks : list (M A)) rts :
  Forall2 (fun task rt => task = Some rt) tasks rts ->
  concurrently E tasks
  = Some (Fulfilled (map fst rts),
          interleave (schedule E (map snd rts)) (map snd rts)).
Proof.
  intros H. unfold concurrently. now rewrite (settleAll_run _ _ H).
Qed.

(** ** [Promise.all] and the outcome of a call *)

Lemma reasons_In {A} (ps : list (settled A)) e :
  In e (reasons ps) <-> In (Rejected e) ps.
Proof.
  induction ps as [|[a|e'] ps IH]; simpl.
  - tauto.
  - rewrite IH. split; [auto|]. intros [H|H]; [discriminate|assumption].
  - rewrite IH. split; intros [H|H]; auto.
    + left. now subst.
    + left. now inversion H.
Qed.

Lemma reasons_app {A} (ps qs : list (settled A)) :
  reasons (ps ++ qs) = reasons ps ++ reasons qs.
Proof.
  induction ps as [|[a|e] ps IH]; simpl; rewrite ?IH; reflexivity.
Qed.

Lemma reasons_length {A} (ps : list (settled A)) :
  List.length (reasons ps) <= List.length ps.
Proof. induction ps as [|[a|e] ps IH]; simpl; lia. Qed.

(** Whichever rejection comes first, [Promise.all] rejects with the
    rejection of one of its promises. *)
Lemma promiseAll_rejected {A} E (ps : list (settled A)) e :
  promiseAll E ps = Rejected e -> In (Rejected e) ps.
Proof.
  unfold promiseAll. destruct (reasons ps) as [|e1 es] eqn:Hr; [discriminate|].
  pose proof (nth_in_or_default (first E (e1 :: es)) (e1 :: es) e1) as Hn.
  intros H. injection H as <-. apply reasons_In. rewrite Hr.
  change (In (nth (first E (e1 :: es)) (e1 :: es) e1) (e1 :: es)).
  destruct Hn as [Hin|Heq]; [exact Hin | rewrite Heq; now left].
Qed.

Lemma promiseAll_fulfilled {A} E (ps : list (settled A)) v :
  promiseAll E ps = Fulfilled v -> reasons ps = [].
Proof.
  unfold promiseAll. now destruct (reasons ps).
Qed.

Lemma await_all E (ps : list (settled (list unit))) :
  (_ <- await (promiseAll E ps) ;; ret tt) = Some (joined E ps, []).
Proof.
  unfold joined, await. now destruct (promiseAll E ps).
Qed.

Lemma values_nil (ps : list (settled unit)) : values ps = [].
Proof. induction ps as [|[v|e] ps IH]; simpl; assumption || reflexivity. Qed.

(** The policy of lines 97-112: no failure, success; one failure, that
    very error; two or more, one aggregate holding all of them in order. *)
Lemma outcome_policy (ps : list (settled unit)) :
  match reasons ps with
  | [] => outcome ps = ret []
  | [e] => outcome ps = throw e
  | e1 :: e2 :: es =>
      outcome ps = throw (MultipleGitError (e1 :: e2 :: es))
  end.
Proof.
  unfold outcome. destruct (reasons ps) as [|e1 [|e2 es]]; simpl;
    try reflexivity.
  now rewrite values_nil.
Qed.

Lemma outcome_verdict ps : outcome ps = Some (verdict (reasons ps), []).
Proof.
  pose proof (outcome_policy ps) as H.
  destruct (reasons ps) as [|e1 [|e2 es]]; rewrite H; reflexivity.
Qed.

Lemma failures_verdict es :
  forallb notMultiple es = true -> failures (verdict es) = es.
Proof.
  destruct es as [|e1 [|e2 es]]; simpl; try reflexivity.
  rewrite andb_true_r. now destruct e1.
Qed.

Lemma Forall_notMultiple es :
  Forall (fun e => notMultiple e = true) es -> forallb notMultiple es = true.
Proof.
  intros H. apply forallb_forall. now apply Forall_forall.
Qed.

(** ** The runs of a task *)

(** One step of taking a settled computation apart. *)
Ltac inv_step :=
  match goal with
  | H : bind _ _ = Some _ |- _ =>
      apply bind_inv in H;
      destruct H as [(? & H & ?) | (? & ? & ? & H & ? & ?)]
  | H : call _ _ = Some _ |- _ =>
      apply call_inv in H; destruct H as [? [(? & ? & ?) | (? & ? & ?)]]
  | H : pure _ = Some _ |- _ =>
      apply pure_inv in H; destruct H as [? [(? & ? & ?) | (? & ? & ?)]]
  | H : ret _ = Some _ |- _ => inversion H; clear H
  | H : throw _ = Some _ |- _ => inversion H; clear H
  | H : emit _ = Some _ |- _ => inversion H; clear H
  | H : Fulfilled _ = Fulfilled _ |- _ => inversion H; clear H
  | H : Rejected _ = Rejected _ |- _ => inversion H; clear H
  | H : Fulfilled _ = Rejected _ |- _ => discriminate H
  | H : Rejected _ = Fulfilled _ |- _ => discriminate H
  end; subst.

Lemma stageBlob_run E rec cur p stats r t :
  isDirectory stats = false ->
  stageBlob E cur p stats = Some (r, t) -> branchRun E rec cur p stats r t.
Proof.
  intros Hd H. unfold stageBlob in H.
  destruct (isSymbolicLink stats) eqn:Hs; repeat inv_step;
    repeat match goal with
           | H : match ?o with Some _ => _ | None => _ end = Some _ |- _ =>
               destruct o
           end;
    repeat inv_step; simpl; solve [econstructor; eassumption].
Qed.

Lemma dispatchChildren_inv E rec cur children r t :
  dispatchChildren E rec cur children = Some (r, t) ->
  exists paths thrown rts,
    joinChildren E cur children = (paths, thrown)
    /\ Forall2 (fun q rt => rec [q] = Some rt) paths rts
    /\ t = interleave (schedule E (map snd rts)) (map snd rts)
    /\ r = match thrown with
           | Some w => Rejected (ForeignError w)
           | None => Fulfilled (map fst rts)
           end.
Proof.
  unfold dispatchChildren.
  destruct (joinChildren E cur children) as [paths thrown].
  intros H. apply bind_inv in H.
  destruct H as [(e & H & _) | (os & t1 & t2 & H & Hk & ->)];
    apply concurrently_inv in H; destruct H as (rts & HF & Hx & ->);
    [discriminate Hx|].
  inversion Hx; subst. exists paths, thrown, rts.
  split; [reflexivity|]. split; [now apply Forall2_map_left in HF|].
  destruct thrown; inversion Hk; subst; rewrite app_nil_r; auto.
Qed.

Lemma dispatchChildren_run E rec cur children paths thrown rts :
  joinChildren E cur children = (paths, thrown) ->
  Forall2 (fun q rt => rec [q] = Some rt) paths rts ->
  dispatchChildren E rec cur children
  = Some (match thrown with
          | Some w => Rejected (ForeignError w)
          | None => Fulfilled (map fst rts)
          end,
          interleave (schedule E (map snd rts)) (map snd rts)).
Proof.
  intros Hj HF. unfold dispatchChildren. rewrite Hj.
  rewrite (concurrently_run E _ rts) by now apply Forall2_map_left.
  destruct thrown; simpl; now rewrite app_nil_r.
Qed.

Lemma stageStat_run E dir rec cur r t :
  stageStat E dir rec cur = Some (r, t) -> statRun E dir rec cur r t.
Proof.
  intros H. unfold stageStat in H. repeat inv_step; simpl;
    try solve [econstructor; eassumption].
  match goal with
  | H : match ?o with Some _ => _ | None => _ end = Some _ |- _ =>
      destruct o as [stats|]
  end; [|inv_step; eapply sr_missing; eassumption].
  eapply sr_branch; try eassumption.
  destruct (isDirectory stats) eqn:Hd; [|eapply stageBlob_run; eassumption].
  match goal with
  | H : bind _ _ = Some _ |- _ => rename H into Hb
  end.
  apply bind_inv in Hb.
  destruct Hb as [(e & Hb & ->) | (children & t1 & t2 & Hb & Hk & ->)];
    apply call_inv in Hb; destruct Hb as [-> [(a & Hr & Hx) | (w & Hr & Hx)]];
    inversion Hx; subst.
  - now apply br_readdir_throws.
  - apply bind_inv in Hk.
    destruct Hk as [(e & Hk & ->) | (promises & t3 & t4 & Hk & Hw & ->)];
      apply dispatchChildren_inv in Hk;
      destruct Hk as (paths & thrown & rts & Hj & HF & -> & Hres).
    + destruct thrown as [w|]; inversion Hres; subst.
      apply (br_directory E rec cur _ stats a paths (Some w) rts); assumption.
    + destruct thrown as [w|]; inversion Hres; subst.
      rewrite await_all in Hw. inversion Hw; subst. rewrite app_nil_r.
      apply (br_directory E rec cur _ stats a paths None rts); assumption.
Qed.

(** The task of an element is one of the runs of [taskRun]. *)
Lemma stagePath_run E dir force rec cur r t :
  stagePath E dir force rec cur = Some (r, t) ->
  taskRun E dir force rec cur r t.
Proof.
  unfold stagePath. destruct force; simpl; intros H.
  - apply stageStat_run in H.
    apply (tr_passes E dir true rec cur r t); [|exact H].
    intros Hf. discriminate Hf.
  - apply bind_inv in H.
    destruct H as [(e & H & ->) | (ignored & t1 & t2 & H & Hk & ->)];
      apply call_inv in H;
      destruct H as [-> [(a & Hi & Hx) | (w & Hi & Hx)]];
      inversion Hx; subst.
    + now apply tr_filter_throws.
    + match goal with
      | H : isIgnored E cur = Ok ?b |- _ => destruct b
      end.
      * inversion Hk; subst. now apply tr_ignored.
      * apply stageStat_run in Hk.
        apply (tr_passes E dir false rec cur r t2); [|exact Hk].
        intros _. exact Hi.
Qed.

(** And every run of [taskRun] is a run of the task. *)
Lemma taskRun_stagePath E dir force rec cur r t :
  taskRun E dir force rec cur r t ->
  stagePath E dir force rec cur = Some (r, t).
Proof.
  assert (Hstat : forall r t, statRun E dir rec cur r t ->
                              stageStat E dir rec cur = Some (r, t)).
  { intros r' t' Hs. unfold stageStat.
    destruct Hs as [w Hj | p w Hj Hl | p Hj Hl | p stats r' t' Hj Hl Hb];
      rewrite Hj; simpl; rewrite ?Hl; simpl; try reflexivity.
    destruct Hb as [w Hd Hr | children paths thrown rts Hd Hr Hc HF
                   | w Hd Hs Hr | target w Hd Hs Hr Hw | target oid Hd Hs Hr Hw
                   | w Hd Hs Hr | Hd Hs Hr | object w Hd Hs Hr Hw
                   | object oid Hd Hs Hr Hw];
      rewrite Hd; unfold stageBlob; rewrite ?Hs, Hr; simpl;
      rewrite ?Hw; simpl; try reflexivity.
    rewrite (dispatchChildren_run E rec cur children paths thrown rts Hc HF).
    destruct thrown as [w|]; simpl; [reflexivity|].
    unfold joined.
    destruct (promiseAll E (map fst rts)); simpl; now rewrite ?app_nil_r. }
  intros H. unfold stagePath.
  destruct H as [w Hf Hi | Hf Hi | r' t' Hp Hs].
  - subst force. simpl. now rewrite Hi.
  - subst force. simpl. now rewrite Hi.
  - apply Hstat in Hs. destruct force; simpl.
    + exact Hs.
    + rewrite (Hp eq_refl). simpl. now rewrite Hs.
Qed.

(** The tasks behind the outcome of the coordinator. *)
Lemma tasks_of E dir force rec expanded r t :
  stageAll E dir force rec expanded = Some (r, t) ->
  exists rts,
    Forall2 (fun cur rt => stagePath E dir force rec cur = Some rt) expanded rts
    /\ r = verdict (reasons (map fst rts))
    /\ t = interleave (schedule E (map snd rts)) (map snd rts).
Proof.
  unfold stageAll, allSettled. intros H. apply bind_inv in H.
  destruct H as [(e & H & _) | (os & t1 & t2 & H & Hk & ->)];
    apply concurrently_inv in H; destruct H as (rts & HF & Hx & ->);
    [discriminate Hx|].
  inversion Hx; subst. rewrite outcome_verdict in Hk. inversion Hk; subst.
  exists rts. rewrite app_nil_r. split; [|split; reflexivity].
  now apply Forall2_map_left in HF.
Qed.

(** All the tasks run to their end, and the outcome is decided from all of
    them. *)
Lemma stageAll_run E dir force rec expanded rts :
  Forall2 (fun cur rt => stagePath E dir force rec cur = Some rt) expanded rts ->
  stageAll E dir force rec expanded
  = Some (verdict (reasons (map fst rts)),
          interleave (schedule E (map snd rts)) (map snd rts)).
Proof.
  intros HF. unfold stageAll, allSettled.
  rewrite (concurrently_run E _ rts) by now apply Forall2_map_left.
  simpl. rewrite outcome_verdict. now rewrite app_nil_r.
Qed.

(** ** What the errors of a call are *)

Section Errors.

Variable E : Collaborators.
Variable dir : string.
Variable force : bool.
Variable rec : list string -> M (list unit).

(** A property of errors that the failures of the collaborators have, and
    the rejections of the recursive calls. *)
Variable P : gitError -> Prop.
Hypothesis P_foreign : forall w, P (ForeignError w).
Hypothesis rec_P : forall q e t, rec [q] = Some (Rejected e, t) -> P e.

Lemma branchRun_error cur p stats r t e :
  P (NotFoundError cur) ->
  branchRun E rec cur p stats r t -> r = Rejected e -> P e.
Proof.
  intros Hnf H Hr.
  destruct H as [w Hd Hl | children paths thrown rts Hd Hl Hc HF
                | w Hd Hs Hl | target w Hd Hs Hl Hw | target oid Hd Hs Hl Hw
                | w Hd Hs Hl | Hd Hs Hl | object w Hd Hs Hl Hw
                | object oid Hd Hs Hl Hw];
    try (inversion Hr; subst; auto; fail).
  destruct thrown as [w|]; [inversion Hr; subst; auto|].
  unfold joined in Hr.
  destruct (promiseAll E (map fst rts)) as [v|e'] eqn:Hp; [discriminate|].
  inversion Hr; subst. apply promiseAll_rejected in Hp.
  apply in_map_iff in Hp. destruct Hp as ([o t'] & Ho & Hin).
  simpl in Ho. subst o.
  destruct (Forall2_in_r _ _ _ _ HF Hin) as (q & _ & Hq).
  eapply rec_P. exact Hq.
Qed.

(** The rejection of a task is a failure of a collaborator, the NotFound
    error of its own element, or the rejection of a recursive call. *)
Lemma taskRun_error cur r t e :
  P (NotFoundError cur) ->
  taskRun E dir force rec cur r t -> r = Rejected e -> P e.
Proof.
  intros Hnf H Hr.
  destruct H as [w Hf Hi | Hf Hi | r t Hp Hs];
    try (inversion Hr; subst; auto; fail).
  destruct Hs as [w Hj | p w Hj Hl | p Hj Hl | p stats r t Hj Hl Hb];
    try (inversion Hr; subst; auto; fail).
  eapply branchRun_error; eassumption.
Qed.

Lemma tasks_errors expanded rts :
  Forall (fun cur => P (NotFoundError cur)) expanded ->
  Forall2 (fun cur rt => stagePath E dir force rec cur = Some rt) expanded rts ->
  Forall P (reasons (map fst rts)).
Proof.
  intros Hp HF. induction HF as [|cur [o t] expanded rts H _ IH]; simpl;
    [constructor|].
  inversion Hp; subst. destruct o as [v|e]; simpl; [auto|].
  constructor; [|auto].
  eapply taskRun_error; [eassumption | apply stagePath_run; exact H | reflexivity].
Qed.

End Errors.

Lemma promises_named E filepath :
  Forall (fun cur => namesPromise (NotFoundError cur)) (fst (expandGlobs E filepath)).
Proof.
  rewrite expandGlobs_promises. apply Forall_forall. intros v Hv.
  apply in_map_iff in Hv. destruct Hv as (p & <- & _).
  intros what Hw. inversion Hw; subst. eexists. reflexivity.
Qed.

(** The failures of the tasks of a call name promises. *)
Lemma addToIndex_tasks_names E dir force fuel filepath r t :
  addToIndex E dir force fuel filepath = Some (r, t) ->
  exists es, r = verdict es /\ Forall namesPromise es.
Proof.
  revert filepath r t. induction fuel as [|n IH]; simpl; intros filepath r t H;
    [discriminate|].
  unfold addToIndexBody in H. apply bind_inv in H.
  destruct H as [(e & H & _) | (u & t1 & t2 & _ & H & _)]; [discriminate H|].
  apply tasks_of in H. destruct H as (rts & HF & -> & _).
  exists (reasons (map fst rts)). split; [reflexivity|].
  apply (tasks_errors E dir force (addToIndex E dir force n) namesPromise)
    with (expanded := fst (expandGlobs E filepath)).
  - intros w what Hw. discriminate Hw.
  - intros q e t' Hq. destruct (IH _ _ _ Hq) as (es & Hv & Hes).
    destruct es as [|e1 [|e2 es]]; simpl in Hv; inversion Hv; subst.
    + now inversion Hes.
    + intros what Hw. discriminate Hw.
  - apply promises_named.
  - exact HF.
Qed.

(** A NotFound error that rejects a call names a promise. *)
Lemma addToIndex_names E dir force fuel filepath e t :
  addToIndex E dir force fuel filepath = Some (Rejected e, t) ->
  namesPromise e.
Proof.
  intros H. destruct (addToIndex_tasks_names _ _ _ _ _ _ _ H) as (es & Hv & Hes).
  destruct es as [|e1 [|e2 es]]; simpl in Hv; inversion Hv; subst.
  - now inversion Hes.
  - intros what Hw. discriminate Hw.
Qed.

(** The failures of the tasks are not aggregates when those of the recursive
    calls on one path are not. *)
Lemma tasks_single E dir force rec expanded rts :
  (forall q e t, rec [q] = Some (Rejected e, t) -> notMultiple e = true) ->
  Forall2 (fun cur rt => stagePath E dir force rec cur = Some rt) expanded rts ->
  forallb notMultiple (reasons (map fst rts)) = true
  /\ List.length (reasons (map fst rts)) <= List.length expanded.
Proof.
  intros Hrec HF. split.
  - apply Forall_notMultiple.
    apply (tasks_errors E dir force rec (fun e => notMultiple e = true))
      with (expanded := expanded); auto.
    apply Forall_forall. reflexivity.
  - rewrite (Forall2_length HF), <- (length_map fst rts).
    apply reasons_length.
Qed.

(** A call on a single path never rejects with an aggregate. *)
Lemma addToIndex_single E dir force fuel p e t :
  addToIndex E dir force fuel [p] = Some (Rejected e, t) ->
  notMultiple e = true.
Proof.
  revert p e t. induction fuel as [|n IH]; simpl; intros p e t H;
    [discriminate|].
  unfold addToIndexBody in H. apply bind_inv in H.
  destruct H as [(e' & H & _) | (u & t1 & t2 & _ & H & _)]; [discriminate H|].
  apply tasks_of in H. destruct H as (rts & HF & Hr & _).
  destruct (tasks_single E dir force _ _ _ IH HF) as [Hn Hlen].
  rewrite expandGlobs_promises in Hlen. simpl in Hlen.
  destruct (reasons (map fst rts)) as [|e1 [|e2 es]]; simpl in *;
    inversion Hr; subst; [|lia].
  rewrite andb_true_r in Hn. exact Hn.
Qed.

Lemma stageAll_flat E dir force rec expanded e t :
  (forall q e t, rec [q] = Some (Rejected e, t) -> notMultiple e = true) ->
  stageAll E dir force rec expanded = Some (Rejected e, t) ->
  match e with
  | MultipleGitError es =>
      2 <= List.length es <= List.length expanded
      /\ forallb notMultiple es = true
  | _ => True
  end.
Proof.
  intros Hrec H. apply tasks_of in H. destruct H as (rts & HF & Hr & _).
  destruct (tasks_single _ _ _ _ _ _ Hrec HF) as [Hnm Hlen].
  destruct (reasons (map fst rts)) as [|e1 [|e2 es]]; simpl in Hr;
    inversion Hr; subst.
  - simpl in Hnm. rewrite andb_true_r in Hnm. now destruct e1.
  - split; [simpl in *; lia | exact Hnm].
Qed.

(** What a call reports, one by one, names promises. *)
Lemma addToIndex_failures_names E dir force fuel filepath r t :
  addToIndex E dir force fuel filepath = Some (r, t) ->
  Forall namesPromise (failures r).
Proof.
  intros H. destruct fuel as [|n]; [discriminate H|].
  pose proof H as H'. simpl in H'. unfold addToIndexBody in H'.
  apply bind_inv in H'.
  destruct H' as [(e & H' & _) | (u & t1 & t2 & _ & H' & _)]; [discriminate H'|].
  apply tasks_of in H'. destruct H' as (rts & HF & Hr & _).
  destruct (tasks_single E dir force _ _ _ (addToIndex_single E dir force n) HF)
    as [Hn _].
  rewrite Hr, (failures_verdict _ Hn).
  apply (tasks_errors E dir force (addToIndex E dir force n) namesPromise)
    with (expanded := fst (expandGlobs E filepath)).
  - intros w what Hw. discriminate Hw.
  - intros q e t' Hq. eapply addToIndex_names. exact Hq.
  - apply promises_named.
  - exact HF.
Qed.

(** ** Where the calls come from *)

Lemma ignoreCheck_justified E dir force from cur :
  from cur -> Forall (justified E dir force from) (ignoreCheck force cur).
Proof.
  intros Hc. unfold ignoreCheck. destruct force eqn:Hf; constructor;
    [now constructor | constructor].
Qed.

Section Justified.

Variable E : Collaborators.
Variable dir : string.
Variable force : bool.
Variable rec : list string -> M (list unit).
Variable from : jsval -> Prop.

Hypothesis rec_justified :
  forall q r t, rec [q] = Some (r, t) -> Forall (justified E dir force from) t.

Lemma children_justified paths rts order :
  Forall2 (fun q rt => rec [q] = Some rt) paths rts ->
  Forall (justified E dir force from) (interleave order (map snd rts)).
Proof.
  intros HF. apply Forall_interleave. apply Forall_forall. intros t Ht.
  apply in_map_iff in Ht. destruct Ht as ([o t'] & <- & Hin).
  destruct (Forall2_in_r _ _ _ _ HF Hin) as (q & _ & Hq).
  eapply rec_justified. exact Hq.
Qed.

Lemma taskRun_justified cur r t :
  from cur -> taskRun E dir force rec cur r t ->
  Forall (justified E dir force from) t.
Proof.
  intros Hc H.
  destruct H as [w Hf Hi | Hf Hi | r t Hp Hs];
    try (repeat constructor; assumption).
  apply Forall_app. split; [now apply ignoreCheck_justified|].
  destruct Hs as [w Hj | p w Hj Hl | p Hj Hl | p stats r t Hj Hl Hb];
    try (repeat constructor; econstructor; eassumption).
  constructor; [econstructor; eassumption|].
  destruct Hb as [w Hd Hr | children paths thrown rts Hd Hr Hch HF
                 | w Hd Hs Hr | target w Hd Hs Hr Hw | target oid Hd Hs Hr Hw
                 | w Hd Hs Hr | Hd Hs Hr | object w Hd Hs Hr Hw
                 | object oid Hd Hs Hr Hw];
    repeat (constructor; try (econstructor; eassumption)).
  eapply children_justified; eassumption.
Qed.

Lemma stageAll_justified expanded r t :
  Forall from expanded ->
  stageAll E dir force rec expanded = Some (r, t) ->
  Forall (justified E dir force from) t.
Proof.
  intros Hfrom H. apply tasks_of in H. destruct H as (rts & HF & _ & ->).
  apply Forall_interleave.
  induction HF as [|cur [o t'] expanded rts H _ IH]; simpl; [constructor|].
  inversion Hfrom; subst. constructor; [|auto].
  eapply taskRun_justified; [eassumption | apply stagePath_run; exact H].
Qed.

Lemma expandGlobs_justified filepath :
  Forall (justified E dir force from) (snd (expandGlobs E filepath)).
Proof.
  eapply Forall_impl; [|apply (expandGlobs_lists E filepath)].
  intros ev (glob & _ & Hs & ->). now constructor.
Qed.

Lemma addToIndexBody_justified filepath r t :
  (forall r0, from (JPromise r0)) ->
  addToIndexBody E dir force rec filepath = Some (r, t) ->
  Forall (justified E dir force from) t.
Proof.
  intros Hfrom H. unfold addToIndexBody in H. apply bind_inv in H.
  destruct H as [(e & H & _) | (u & t1 & t2 & Ht1 & H & ->)]; [discriminate H|].
  inversion Ht1; subst. apply Forall_app. split.
  - apply expandGlobs_justified.
  - eapply stageAll_justified; [|eassumption].
    rewrite expandGlobs_promises. apply Forall_forall. intros v Hv.
    apply in_map_iff in Hv. destruct Hv as (p & <- & _). apply Hfrom.
Qed.

End Justified.

(** Every call of a run of [addToIndex] is justified, and was made for a
    promise. *)
Lemma addToIndex_justified E dir force from fuel filepath r t :
  (forall r0, from (JPromise r0)) ->
  addToIndex E dir force fuel filepath = Some (r, t) ->
  Forall (justified E dir force from) t.
Proof.
  intros Hfrom. revert filepath r t.
  induction fuel as [|n IH]; simpl; intros filepath r t H.
  - discriminate.
  - eapply addToIndexBody_justified; [|exact Hfrom|eassumption].
    intros q. apply IH.
Qed.

Lemma run_justified E dir force n expanded r t ev :
  stageAll E dir force (addToIndex E dir force n) expanded = Some (r, t) ->
  In ev t -> justified E dir force anyValue ev.
Proof.
  intros H Hin.
  apply (stageAll_justified E dir force _ anyValue) in H.
  - rewrite Forall_forall in H. now apply H.
  - intros q r' t'. apply addToIndex_justified. intros r0. exact I.
  - apply Forall_forall. intros v _. exact I.
Qed.

Lemma call_justified E dir force fuel filepath r t ev :
  addToIndex E dir force fuel filepath = Some (r, t) ->
  In ev t -> justified E dir force isPromise ev.
Proof.
  intros H Hin.
  apply (addToIndex_justified E dir force isPromise) in H.
  - rewrite Forall_forall in H. now apply H.
  - intros r0. eexists. reflexivity.
Qed.

(** ** Where the file system is looked at *)

(** The paths handed to the file system by a staging run: [lstat], [read]
    and [readlink] always get [join(dir, path)]; [readdir] gets it for a
    directory being staged, and the bare directory component of the
    pattern during glob expansion. *)
Lemma fs_calls_rooted_but_glob E dir force fuel filepath r t ev :
  addToIndex E dir force fuel filepath = Some (r, t) ->
  In ev t ->
  match ev with
  | EvLstat p | EvRead p | EvReadlink p =>
      exists cur, join E (JStr dir) cur = Ok p
  | EvReaddir p =>
      (exists cur, join E (JStr dir) cur = Ok p)
      \/ (exists glob, JS.includes "*" glob = true /\ p = globDirectory glob)
  | _ => True
  end.
Proof.
  intros H Hin. pose proof (call_justified _ _ _ _ _ _ _ _ H Hin) as J.
  inversion J; subst; eauto.
Qed.

(** ** A [join] that takes strings only *)

Lemma taskRun_refused E dir force rec r0 r t :
  refusesPromises E ->
  taskRun E dir force rec (JPromise r0) r t ->
  forallb isFilterCall t = true
  /\ (force = true -> exists w, r = Rejected (ForeignError w)).
Proof.
  intros Hre H. destruct (Hre dir r0) as [w0 Hw0].
  destruct H as [w Hf Hi | Hf Hi | r t Hp Hs].
  - split; [reflexivity|]. intros Hx. congruence.
  - split; [reflexivity|]. intros Hx. congruence.
  - destruct Hs as [w Hj | p w Hj Hl | p Hj Hl | p stats r t Hj Hl Hb];
      try congruence.
    rewrite app_nil_r. split; [|eauto].
    unfold ignoreCheck. now destruct force.
Qed.

Lemma tasks_refused E dir force rec expanded rts :
  refusesPromises E ->
  Forall isPromise expanded ->
  Forall2 (fun cur rt => stagePath E dir force rec cur = Some rt) expanded rts ->
  Forall (fun t => forallb isFilterCall t = true) (map snd rts)
  /\ (force = true ->
      List.length (reasons (map fst rts)) = List.length expanded
      /\ forallb notMultiple (reasons (map fst rts)) = true).
Proof.
  intros Hre Hp HF.
  induction HF as [|cur [o t] expanded rts H _ IH]; simpl.
  - split; [constructor | auto].
  - inversion Hp as [|? ? [r0 ->] Hp']; subst.
    destruct (IH Hp') as [IH1 IH2].
    apply stagePath_run in H.
    destruct (taskRun_refused _ _ _ _ _ _ _ Hre H) as [Ht Ho]. split.
    + constructor; assumption.
    + intros Hf. destruct (Ho Hf) as [w ->]. destruct (IH2 Hf) as [Hl Hn].
      simpl. rewrite Hl, Hn. auto.
Qed.

(** With such a [join] a call makes the listings of its patterns, asks the
    ignore filter, and nothing else; with [force] every requested path
    fails. *)
Lemma addToIndex_refused E dir force fuel filepath r t :
  refusesPromises E ->
  addToIndex E dir force fuel filepath = Some (r, t) ->
  exists t',
    t = snd (expandGlobs E filepath) ++ t'
    /\ forallb isFilterCall t' = true
    /\ (force = true -> List.length (failures r) = List.length filepath).
Proof.
  intros Hre H. destruct fuel as [|n]; [discriminate H|].
  simpl in H. unfold addToIndexBody in H. apply bind_inv in H.
  destruct H as [(e & H & _) | (u & t1 & t2 & Ht1 & H & ->)]; [discriminate H|].
  inversion Ht1; subst. exists t2. split; [reflexivity|].
  apply tasks_of in H. destruct H as (rts & HF & -> & ->).
  assert (Hp : Forall isPromise (fst (expandGlobs E filepath))).
  { rewrite expandGlobs_promises. apply Forall_forall. intros v Hv.
    apply in_map_iff in Hv. destruct Hv as (p & <- & _). eexists. reflexivity. }
  destruct (tasks_refused E dir force _ _ _ Hre Hp HF) as [Ht Ho].
  split.
  - apply forallb_forall. intros ev Hin. apply interleave_In in Hin.
    destruct Hin as (t & Hin & Hev). rewrite Forall_forall in Ht.
    specialize (Ht _ Hin). rewrite forallb_forall in Ht. auto.
  - intros Hf. destruct (Ho Hf) as [Hl Hn].
    rewrite (failures_verdict _ Hn), Hl, expandGlobs_promises.
    apply length_map.
Qed.

Lemma existsb_none {A} (f : A -> bool) (l : list A) :
  (forall x, In x l -> f x = false) -> existsb f l = false.
Proof.
  intros H. destruct (existsb f l) eqn:Hx; [|reflexivity].
  apply existsb_exists in Hx. destruct Hx as (x & Hin & Hfx).
  rewrite (H _ Hin) in Hfx. discriminate.
Qed.


(** ** Splitting a pattern and compiling it *)

Lemma split_cons sep s : exists h t, JS.split sep s = h :: t.
Proof.
  destruct s as [|a r]; simpl; [eauto|].
  destruct (Ascii.eqb a sep); [eauto|].
  destruct (JS.split sep r); eauto.
Qed.

Lemma split_no_sep sep f :
  JS.includes sep f = false -> JS.split sep f = [f].
Proof.
  induction f as [|a f IH]; simpl; [reflexivity|].
  intros H. apply orb_false_iff in H. destruct H as [Ha Hf].
  rewrite Ha, (IH Hf). reflexivity.
Qed.

Lemma split_final sep d f :
  JS.includes sep f = false ->
  JS.split sep (d ++ String sep f)%string = JS.split sep d ++ [f].
Proof.
  intros Hf. induction d as [|a d IH]; simpl.
  - rewrite Ascii.eqb_refl, (split_no_sep _ _ Hf). reflexivity.
  - destruct (Ascii.eqb a sep); rewrite IH; [reflexivity|].
    destruct (split_cons sep d) as (h & t & ->). reflexivity.
Qed.

Lemma join_split sep d :
  JS.join (String sep EmptyString) (JS.split sep d) = d.
Proof.
  unfold JS.join. induction d as [|a d IH]; simpl; [reflexivity|].
  destruct (Ascii.eqb a sep) eqn:Ha.
  - apply Ascii.eqb_eq in Ha. subst a.
    destruct (split_cons sep d) as (h & t & Hs). rewrite Hs in *.
    simpl. simpl in IH. now rewrite IH.
  - destruct (split_cons sep d) as (h & t & Hs). rewrite Hs in *.
    simpl in *. destruct t; simpl in *; now rewrite <- IH.
Qed.

(** A pattern is split at its last slash. *)
Lemma glob_split d f :
  JS.includes "/" f = false ->
  globDirectory (d ++ "/" ++ f) = d /\ globFile (d ++ "/" ++ f) = f.
Proof.
  intros Hf. unfold globDirectory, globFile, JS.slice_init, JS.slice_last.
  simpl String.append. rewrite (split_final "/" d f Hf).
  rewrite length_app. simpl List.length.
  replace (List.length (JS.split "/" d) + 1 - 1)
    with (List.length (JS.split "/" d) + 0) by lia.
  rewrite firstn_app_2, skipn_app. simpl firstn.
  rewrite app_nil_r, skipn_all2 by lia.
  replace (List.length (JS.split "/" d) + 0 - List.length (JS.split "/" d))
    with 0 by lia.
  simpl. split; [apply join_split | reflexivity].
Qed.

Lemma body_cons c r :
  body (String c r)
  = if Ascii.eqb c "*" then String "." (String "*" (body r))
    else if Ascii.eqb c "?" then String "." (body r)
    else String c (body r).
Proof.
  unfold body. simpl. destruct (Ascii.eqb c "*") eqn:Hs; [reflexivity|].
  simpl. destruct (Ascii.eqb c "?"); reflexivity.
Qed.

Lemma body_head pattern :
  exists c r, body pattern = String c r /\ Ascii.eqb c "*" = false.
Proof.
  destruct pattern as [|c r].
  - exists "$"%char, EmptyString. split; reflexivity.
  - rewrite body_cons. destruct (Ascii.eqb c "*") eqn:Hs; [eauto|].
    destruct (Ascii.eqb c "?"); eauto.
Qed.

Lemma parse_body pattern :
  plainPattern pattern = true ->
  Regex.parseBody (body pattern) = Some (tokens pattern).
Proof.
  induction pattern as [|c r IH]; [reflexivity|].
  simpl plainPattern. intros H. apply andb_true_iff in H. destruct H as [Hc Hr].
  specialize (IH Hr). rewrite body_cons. simpl tokens. unfold tokenOf.
  destruct (Ascii.eqb c "*") eqn:Hstar.
  - simpl. now rewrite IH.
  - destruct (Ascii.eqb c "?") eqn:Hq.
    + destruct (body_head r) as (c' & r' & Hb & Hc').
      simpl. rewrite Hb, Hc', <- Hb, IH. reflexivity.
    + destruct (Ascii.eqb c ".") eqn:Hdot.
      * apply Ascii.eqb_eq in Hdot. subst c.
        destruct (body_head r) as (c' & r' & Hb & Hc').
        simpl. rewrite Hb, Hc', <- Hb, IH. reflexivity.
      * simpl in Hc. rewrite !orb_false_r in Hc.
        apply negb_true_iff in Hc.
        assert (Hd : Ascii.eqb c "$" = false).
        { destruct (Ascii.eqb c "$") eqn:Hd; [|reflexivity].
          apply Ascii.eqb_eq in Hd. subst c. discriminate Hc. }
        simpl. rewrite Hd, Hdot, Hc, IH. reflexivity.
Qed.

Lemma matches_tokens pattern name :
  Regex.matches (tokens pattern) name = codeGlobMatch pattern name.
Proof.
  unfold codeGlobMatch. revert name.
  induction pattern as [|c r IH]; intros name; [reflexivity|].
  simpl. unfold tokenOf. destruct (Ascii.eqb c "*") eqn:Hstar.
  - induction name as [|a name IHn]; rewrite IH; [reflexivity|].
    f_equal. f_equal. exact IHn.
  - destruct (Ascii.eqb c "?" || Ascii.eqb c "."); destruct name;
      rewrite ?IH; reflexivity.
Qed.

(** The regular expression of a plain pattern reads it as [codeGlobMatch]. *)
Lemma RegExp_glob pattern :
  plainPattern pattern = true ->
  exists test, Regex.RegExp (globSource pattern) = Ok test
               /\ forall name, test name = codeGlobMatch pattern name.
Proof.
  intros H. exists (Regex.matches (tokens pattern)). split.
  - unfold Regex.RegExp, globSource. change (Regex.parse _) with
      (Regex.parseBody (body pattern)).
    now rewrite (parse_body _ H).
  - apply matches_tokens.
Qed.

Lemma includes_app c a b :
  JS.includes c b = true -> JS.includes c (a ++ b)%string = true.
Proof.
  intros H. induction a as [|x a IH]; simpl; [exact H|].
  rewrite IH. apply orb_true_r.
Qed.

Lemma last_slash (glob : string) :
  JS.includes "/" glob = true ->
  exists d f, glob = (d ++ "/" ++ f)%string /\ JS.includes "/" f = false.
Proof.
  induction glob as [|a r IH]; simpl; [discriminate|].
  destruct (JS.includes "/" r) eqn:Hr.
  - intros _. destruct (IH eq_refl) as (d & f & -> & Hf).
    exists (String a d), f. split; [reflexivity | exact Hf].
  - rewrite orb_false_r. intros Ha. apply Ascii.eqb_eq in Ha. subst a.
    exists EmptyString, r. split; [reflexivity | exact Hr].
Qed.

(** Lines 120-127 cut a pattern at its last slash and lose nothing. *)
Lemma glob_cut (glob : string) :
  JS.includes "/" (globFile glob) = false
  /\ (JS.includes "/" glob = true ->
      glob = (globDirectory glob ++ "/" ++ globFile glob)%string)
  /\ (JS.includes "/" glob = false ->
      globDirectory glob = EmptyString /\ globFile glob = glob).
Proof.
  destruct (JS.includes "/" glob) eqn:H.
  - destruct (last_slash glob H) as (d & f & Hg & Hf).
    destruct (glob_split d f Hf) as [Hd Hfile]. rewrite <- Hg in Hd, Hfile.
    rewrite Hd, Hfile. split; [exact Hf|]. split; [intros _; exact Hg|].
    intros Hx. discriminate Hx.
  - unfold globDirectory, globFile. rewrite (split_no_sep _ _ H). simpl.
    split; [exact H|]. split; [intros Hx; discriminate Hx | auto].
Qed.

Lemma wildcard_star one ok p n :
  wildcard one ok (String "*" p) n
  = wildcard one ok p n
    || match n with
       | String a n' => ok a && wildcard one ok (String "*" p) n'
       | EmptyString => false
       end.
Proof. destruct n; reflexivity. Qed.

Lemma wildcard_char one ok c p n :
  Ascii.eqb c "*" = false ->
  wildcard one ok (String c p) n
  = match n with
    | String a n' =>
        (if one c then ok a else Ascii.eqb a c) && wildcard one ok p n'
    | EmptyString => false
    end.
Proof. intros H. simpl. now rewrite H. Qed.

Lemma wildcard_sound one ok p n :
  wildcard one ok p n = true -> GlobMatch one ok p n.
Proof.
  revert n. induction p as [|c p IH]; intros n.
  - destruct n; simpl; [constructor | discriminate].
  - destruct (Ascii.eqb c "*") eqn:Hc.
    + apply Ascii.eqb_eq in Hc. subst c.
      induction n as [|a n IHn]; rewrite wildcard_star; intros H.
      * rewrite orb_false_r in H. apply gm_star_none, IH, H.
      * apply orb_true_iff in H. destruct H as [H|H].
        { apply gm_star_none, IH, H. }
        { apply andb_true_iff in H. destruct H as [Ha H].
          apply gm_star_more; [exact Ha | apply IHn, H]. }
    + rewrite (wildcard_char _ _ _ _ _ Hc). destruct n as [|a n];
        [discriminate|].
      intros H. apply andb_true_iff in H. destruct H as [Ha H].
      apply gm_char; [exact Hc | exact Ha | apply IH, H].
Qed.

Lemma wildcard_complete one ok p n :
  GlobMatch one ok p n -> wildcard one ok p n = true.
Proof.
  induction 1 as [|p n _ IH|p a n Ha _ IH|c p a n Hc Ha _ IH].
  - reflexivity.
  - rewrite wildcard_star, IH. reflexivity.
  - rewrite wildcard_star, Ha, IH. apply orb_true_r.
  - rewrite (wildcard_char _ _ _ _ _ Hc), Ha, IH. reflexivity.
Qed.

(** The literal reading accepts no more than the compiled one. *)
Lemma wildcard_weaker pattern name :
  noLineTerminator name = true ->
  specGlobMatch pattern name = true -> codeGlobMatch pattern name = true.
Proof.
  unfold specGlobMatch, codeGlobMatch. revert name.
  induction pattern as [|c p IH]; intros name Hn; [auto|].
  destruct (Ascii.eqb c "*") eqn:Hc.
  - apply Ascii.eqb_eq in Hc. subst c.
    induction name as [|a n IHn];
      [rewrite !(wildcard_star _ _ p EmptyString)
      |rewrite !(wildcard_star _ _ p (String a n))].
    + rewrite !orb_false_r. now apply IH.
    + pose proof Hn as Han.
      simpl in Hn. apply andb_true_iff in Hn. destruct Hn as [Ha Hn].
      intros H. apply orb_true_iff in H. destruct H as [H|H].
      * rewrite (IH _ Han H). reflexivity.
      * apply andb_true_iff in H. destruct H as [_ H].
        rewrite Ha, (IHn Hn H). apply orb_true_r.
  - rewrite !(wildcard_char _ _ _ _ _ Hc). destruct name as [|a n]; [auto|].
    simpl in Hn. apply andb_true_iff in Hn. destruct Hn as [Ha Hn].
    intros H. apply andb_true_iff in H. destruct H as [H1 H2].
    rewrite (IH _ Hn H2), andb_true_r.
    destruct (Ascii.eqb c "?") eqn:Hq; simpl; [exact Ha|].
    destruct (Ascii.eqb c "."); [exact Ha | exact H1].
Qed.

Lemma wildcard_same pattern name :
  JS.includes "." pattern = false ->
  noLineTerminator name = true ->
  codeGlobMatch pattern name = specGlobMatch pattern name.
Proof.
  unfold specGlobMatch, codeGlobMatch. revert name.
  induction pattern as [|c p IH]; intros name Hp Hn; [reflexivity|].
  simpl in Hp. apply orb_false_iff in Hp. destruct Hp as [Hdot Hp].
  destruct (Ascii.eqb c "*") eqn:Hc.
  - apply Ascii.eqb_eq in Hc. subst c.
    induction name as [|a n IHn];
      [rewrite !(wildcard_star _ _ p EmptyString)
      |rewrite !(wildcard_star _ _ p (String a n))].
    + now rewrite IH.
    + pose proof Hn as Han.
      simpl in Hn. apply andb_true_iff in Hn. destruct Hn as [Ha Hn].
      rewrite (IH _ Hp Han), (IHn Hn), Ha. reflexivity.
  - rewrite !(wildcard_char _ _ _ _ _ Hc). destruct name as [|a n];
      [reflexivity|].
    simpl in Hn. apply andb_true_iff in Hn. destruct Hn as [Ha Hn].
    rewrite (IH _ Hp Hn), Hdot, orb_false_r.
    destruct (Ascii.eqb c "?"); [now rewrite Ha | reflexivity].
Qed.

(** ** Fuel *)

Lemma refines_refl {A} (m : M A) : refines m m.
Proof. intros x H. exact H. Qed.

Lemma bind_refines {A B} (m m' : M A) (k k' : A -> M B) :
  refines m m' -> (forall a, refines (k a) (k' a)) ->
  refines (bind m k) (bind m' k').
Proof.
  intros Hm Hk [r t] H. apply bind_inv in H.
  destruct H as [(e & H & ->) | (a & t1 & t2 & H & Ha & ->)].
  - now rewrite (Hm _ H).
  - rewrite (Hm _ H). simpl. now rewrite (Hk _ _ Ha).
Qed.

Lemma settleAll_refines {A} (tasks tasks' : list (M A)) rts :
  Forall2 refines tasks tasks' ->
  settleAll tasks = Some rts -> settleAll tasks' = Some rts.
Proof.
  intros HF H. apply settleAll_inv in H. apply settleAll_run.
  revert rts H. induction HF as [|m m' tasks tasks' Hm _ IH]; intros rts H;
    inversion H; subst; constructor; auto.
Qed.

Lemma concurrently_refines {A} E (tasks tasks' : list (M A)) :
  Forall2 refines tasks tasks' ->
  refines (concurrently E tasks) (concurrently E tasks').
Proof.
  intros HF [r t] H. unfold concurrently in *.
  destruct (settleAll tasks) as [rts|] eqn:Hs; [|discriminate].
  now rewrite (settleAll_refines _ _ _ HF Hs).
Qed.

Lemma map_refines {A B} (f g : A -> M B) (l : list A) :
  (forall a, refines (f a) (g a)) -> Forall2 refines (map f l) (map g l).
Proof.
  intros H. induction l as [|a l IH]; simpl; constructor; auto.
Qed.

Section Fuel.

Variable E : Collaborators.
Variable dir : string.
Variable force : bool.
Variables rec rec' : list string -> M (list unit).
Hypothesis rec_refines : forall l, refines (rec l) (rec' l).

Lemma dispatchChildren_refines cur children :
  refines (dispatchChildren E rec cur children)
          (dispatchChildren E rec' cur children).
Proof.
  unfold dispatchChildren.
  destruct (joinChildren E cur children) as [paths thrown].
  apply bind_refines; [|intros os; apply refines_refl].
  apply concurrently_refines, map_refines. intros p. apply rec_refines.
Qed.

Lemma stageStat_refines cur :
  refines (stageStat E dir rec cur) (stageStat E dir rec' cur).
Proof.
  unfold stageStat.
  apply bind_refines; [apply refines_refl|]. intros p.
  apply bind_refines; [apply refines_refl|]. intros [stats|];
    [|apply refines_refl].
  destruct (isDirectory stats); [|apply refines_refl].
  apply bind_refines; [apply refines_refl|]. intros children.
  apply bind_refines; [apply dispatchChildren_refines|]. intros os.
  apply refines_refl.
Qed.

Lemma stagePath_refines cur :
  refines (stagePath E dir force rec cur) (stagePath E dir force rec' cur).
Proof.
  unfold stagePath. destruct (negb force); [|apply stageStat_refines].
  apply bind_refines; [apply refines_refl|]. intros [|];
    [apply refines_refl | apply stageStat_refines].
Qed.

Lemma addToIndexBody_refines filepath :
  refines (addToIndexBody E dir force rec filepath)
          (addToIndexBody E dir force rec' filepath).
Proof.
  unfold addToIndexBody, stageAll, allSettled.
  apply bind_refines; [apply refines_refl|]. intros _.
  apply bind_refines; [|intros ps; apply refines_refl].
  apply concurrently_refines, map_refines. apply stagePath_refines.
Qed.

End Fuel.

(** A result obtained with some fuel is the result with more fuel. *)
Lemma addToIndex_more_fuel E dir force n m filepath x :
  n <= m ->
  addToIndex E dir force n filepath = Some x ->
  addToIndex E dir force m filepath = Some x.
Proof.
  intros Hle. revert filepath x. induction Hle as [|m Hle IH].
  - auto.
  - intros filepath x H. apply IH in H. clear IH Hle n. revert filepath x H.
    induction m as [|m IHm]; intros filepath x H; [discriminate|].
    simpl in *. revert H. apply addToIndexBody_refines. exact IHm.
Qed.

(** * The claims *)

(** C1, as the code has it.  The task of a requested path receives the
    promise that [expandGlobs] made for it, so a NotFound error raised for
    the path carries that promise: no call of [addToIndex] is rejected with
    a NotFound error that names a path string such as [missing.txt].  With
    collaborators that take strings only, staging [missing.txt] is rejected
    by the failure of [join]. *)
Theorem missing_path_not_named (E : Collaborators) (dir : string)
  (force : bool) (fuel : nat) (filepath : list string) (e : gitError)
  (t : list event) (s : string) :
  addToIndex E dir force fuel filepath = Some (Rejected e, t) ->
  e <> NotFoundError (JStr s)
  /\ add Tree.dotGit 1
       {| fs := Some Tree.env; dir := Some "/repo";
          gitdir := Some "/repo/.git";
          filepath := Some (One "missing.txt"); force := true |}
     = Some (Threw {| error := ForeignError "TypeError: path is not a string";
                      caller := Some "git.add" |}, []).
Proof.
  intros H. split; [|reflexivity].
  intros ->. apply addToIndex_names in H.
  destruct (H (JStr s) eq_refl) as [r Hr]. discriminate Hr.
Qed.

Lemma missing_path_not_named_witness :
  addToIndex Tree.env "/repo" true 1 ["missing.txt"]
  = Some (Rejected (ForeignError "TypeError: path is not a string"), [])
  /\ ForeignError "TypeError: path is not a string"
     <> NotFoundError (JStr "missing.txt").
Proof.
  split; [reflexivity|].
  apply (missing_path_not_named Tree.env "/repo" true 1 ["missing.txt"] _ []).
  reflexivity.
Defined.

(** C2, as the code has it.  A path without [*] is handed on unchanged and
    unread, whether or not it holds a [?]: the pattern [dir/?.md] is not
    replaced by the entries that match it.  What [expandGlobs] returns for a
    requested path is not a path string but the promise made for it, one
    per request: a pattern that matches nothing still contributes one
    element, the promise of an empty array. *)
Theorem expandGlobs_question_mark_unexpanded (E : Collaborators)
  (filepath : list string) :
  expandGlobs E ["dir/?.md"] = ([JPromise (Ok ["dir/?.md"])], [])
  /\ expandGlobs E ["a.txt"] = ([JPromise (Ok ["a.txt"])], [])
  /\ expandGlobs Tree.env ["dir/*.rs"] = ([JPromise (Ok [])], [EvReaddir "dir"])
  /\ fst (expandGlobs E filepath)
     = map (fun p => JPromise (fst (expandOne E p))) filepath.
Proof.
  repeat split. apply expandGlobs_promises.
Qed.

(** C3, as stated, fails on a character that a regular expression reads
    specially: in the listing [atxt], [a.txt] the pattern [g/*.txt] keeps
    [atxt] too, which the pattern with its dot taken literally does not
    match.  And [dir/?.md], which holds no [*], is not expanded. *)
Lemma unescaped_pattern_counterexample :
  expandOne Tree.env "g/*.txt" = (Ok ["g/atxt"; "g/a.txt"], [EvReaddir "g"])
  /\ filter (specGlobMatch "*.txt") ["atxt"; "a.txt"] = ["a.txt"]
  /\ expandOne Tree.env "dir/?.md" = (Ok ["dir/?.md"], []).
Proof. repeat split. Qed.

(** C3, amended.  Any path that holds a [*], wherever it stands, is cut at
    its last slash into a directory and a file pattern (a path without a
    slash has the empty directory and is its own file pattern, and the file
    pattern never holds a slash).  The directory is listed, and the entries
    kept are exactly those that pass the test of the regular expression
    built from the file pattern with nothing escaped; each of them is
    joined to the directory.  When the file pattern holds no syntax
    character of regular expressions other than [*], [?] and [.], passing
    the test is matching the whole pattern with [*] read as any run of
    characters, [?] and [.] as any one character (none of them a line
    terminator) and every other character as itself.  Over [a.txt],
    [b.txt], [c.md] the pattern [dir/*.txt] gives [dir/a.txt] and
    [dir/b.txt]. *)
Theorem glob_keeps_unescaped_matches (E : Collaborators) (glob : string)
  (test : string -> bool) (files : list string) :
  JS.includes "*" glob = true ->
  RegExp E (globSource (globFile glob)) = Ok test ->
  readdir E (globDirectory glob) = Ok files ->
  expandOne E glob
  = (joinAll E (globDirectory glob) (filter test files),
     [EvReaddir (globDirectory glob)])
  /\ JS.includes "/" (globFile glob) = false
  /\ (JS.includes "/" glob = true ->
      glob = (globDirectory glob ++ "/" ++ globFile glob)%string)
  /\ (JS.includes "/" glob = false ->
      globDirectory glob = EmptyString /\ globFile glob = glob)
  /\ (plainPattern (globFile glob) = true ->
      RegExp E (globSource (globFile glob))
      = Regex.RegExp (globSource (globFile glob)) ->
      forall name, test name = codeGlobMatch (globFile glob) name)
  /\ expandOne Tree.env "dir/*.txt"
     = (Ok ["dir/a.txt"; "dir/b.txt"], [EvReaddir "dir"]).
Proof.
  intros Hstar Hre Hdir.
  destruct (glob_cut glob) as (Hfile & Hcut & Hbare).
  split; [|split; [exact Hfile|split; [exact Hcut|split; [exact Hbare|split]]]].
  - unfold expandOne. now rewrite Hstar, Hre, Hdir.
  - intros Hplain Hsame name.
    destruct (RegExp_glob _ Hplain) as (test' & Htest & Hmeaning).
    rewrite Hre, Htest in Hsame. inversion Hsame; subst. apply Hmeaning.
  - reflexivity.
Qed.

Lemma glob_keeps_unescaped_matches_witness :
  expandOne Tree.env "dir/*.txt"
  = (joinAll Tree.env (globDirectory "dir/*.txt")
       (filter (Regex.matches (tokens "*.txt")) ["a.txt"; "b.txt"; "c.md"]),
     [EvReaddir (globDirectory "dir/*.txt")])
  /\ expandOne Tree.env "*.log"
     = (joinAll Tree.env (globDirectory "*.log")
          (filter (Regex.matches (tokens "*.log")) []),
        [EvReaddir (globDirectory "*.log")]).
Proof.
  split.
  - refine (proj1 (glob_keeps_unescaped_matches Tree.env "dir/*.txt"
                     (Regex.matches (tokens "*.txt"))
                     ["a.txt"; "b.txt"; "c.md"] _ _ _)); reflexivity.
  - refine (proj1 (glob_keeps_unescaped_matches Tree.env "*.log"
                     (Regex.matches (tokens "*.log")) [] _ _ _)); reflexivity.
Defined.



(** C5, as the code has it.  The ignore filter is never asked about a path:
    what line 67 hands to it is the promise that [expandGlobs] made for the
    path, in every run.  With [force] it is not called at all.  With a
    filter and a [join] that take strings only, staging [ignored.log]
    without [force] is rejected by the failure of the filter instead of
    skipping the path, and staging [a.txt] with [force] is rejected by the
    failure of [join] instead of staging the path. *)
Theorem filter_is_handed_promises (E : Collaborators) (dir : string)
  (force : bool) (fuel : nat) (filepath : list string)
  (r : settled (list unit)) (t : list event) :
  addToIndex E dir force fuel filepath = Some (r, t) ->
  existsb asksAboutString t = false
  /\ (force = true -> existsb isFilterCall t = false)
  /\ isIgnored Tree.env (JStr "ignored.log") = Ok true
  /\ add Tree.dotGit 1
       {| fs := Some Tree.env; dir := Some "/repo";
          gitdir := Some "/repo/.git";
          filepath := Some (One "ignored.log"); force := false |}
     = Some (Threw {| error := ForeignError "TypeError: filepath is not a string";
                      caller := Some "git.add" |},
             [EvIsIgnored (JPromise (Ok ["ignored.log"]))])
  /\ add Tree.dotGit 1
       {| fs := Some Tree.env; dir := Some "/repo";
          gitdir := Some "/repo/.git";
          filepath := Some (One "a.txt"); force := true |}
     = Some (Threw {| error := ForeignError "TypeError: path is not a string";
                      caller := Some "git.add" |}, []).
Proof.
  intros H. split; [|split; [|repeat split]].
  - apply existsb_none. intros ev Hin.
    pose proof (call_justified _ _ _ _ _ _ _ _ H Hin) as J.
    destruct J as [cur [pr ->] _| | | | | | | | |]; reflexivity.
  - intros Hf. apply existsb_none. intros ev Hin.
    pose proof (call_justified _ _ _ _ _ _ _ _ H Hin) as J.
    destruct J as [cur _ Hforce| | | | | | | | |]; try reflexivity.
    rewrite Hf in Hforce. discriminate Hforce.
Qed.

Lemma filter_is_handed_promises_witness :
  existsb asksAboutString [EvIsIgnored (JPromise (Ok ["ignored.log"]))] = false.
Proof.
  apply (filter_is_handed_promises Tree.env "/repo" false 1 ["ignored.log"]
           (Rejected (ForeignError "TypeError: filepath is not a string"))
           [EvIsIgnored (JPromise (Ok ["ignored.log"]))]).
  reflexivity.
Defined.

(** C6, as the code has it.  No run records an index entry under a path
    string: the path of every entry is the promise that [expandGlobs] made.
    With a [join] that takes strings only nothing is recorded at all:
    staging [link], a symbolic link to [../other.txt], is rejected by the
    failure of [join]; the link is not read, no blob is written and no
    entry is inserted. *)
Theorem link_never_staged_under_its_path (E : Collaborators) (dir : string)
  (force : bool) (fuel : nat) (filepath : list string)
  (r : settled (list unit)) (t : list event) :
  addToIndex E dir force fuel filepath = Some (r, t) ->
  existsb keyedByString t = false
  /\ lstat Tree.env "/repo/link" = Ok (Some Tree.symlink)
  /\ readlink Tree.env "/repo/link" = Ok (list_byte_of_string "../other.txt")
  /\ add Tree.dotGit 1
       {| fs := Some Tree.env; dir := Some "/repo";
          gitdir := Some "/repo/.git";
          filepath := Some (One "link"); force := true |}
     = Some (Threw {| error := ForeignError "TypeError: path is not a string";
                      caller := Some "git.add" |}, []).
Proof.
  intros H. split; [|repeat split].
  apply existsb_none. intros ev Hin.
  pose proof (call_justified _ _ _ _ _ _ _ _ H Hin) as J.
  destruct J as [| | | | | | | |cur p stats target oid [pr ->]
                |cur p stats object oid [pr ->]]; reflexivity.
Qed.

Lemma link_never_staged_under_its_path_witness :
  existsb keyedByString [] = false.
Proof.
  apply (link_never_staged_under_its_path Tree.env "/repo" true 1 ["link"]
           (Rejected (ForeignError "TypeError: path is not a string")) []).
  reflexivity.
Defined.

(** C7, as the code has it.  What a run stats is [join(dir, promise)] for
    the promise that [expandGlobs] made for a requested path or for a
    child, never [join(dir, path)].  With a [join] that takes strings only
    there is no such path: the calls of a run are the listings of its
    patterns and the calls of the ignore filter, so no directory is listed
    for staging and no leaf is stat-ed, read, written or inserted.  Staging
    the directory [d], which holds [x] and [y], is rejected by the failure
    of [join] and records no call. *)
Theorem directory_never_walked (E : Collaborators) (dir : string)
  (force : bool) (fuel : nat) (filepath : list string)
  (r : settled (list unit)) (t : list event) :
  addToIndex E dir force fuel filepath = Some (r, t) ->
  (forall p, In (EvLstat p) t ->
             exists pr, join E (JStr dir) (JPromise pr) = Ok p)
  /\ (refusesPromises E ->
      exists t', t = snd (expandGlobs E filepath) ++ t'
                 /\ forallb isFilterCall t' = true)
  /\ lstat Tree.env "/repo/d" = Ok (Some Tree.directory)
  /\ readdir Tree.env "/repo/d" = Ok ["x"; "y"]
  /\ add Tree.dotGit 1
       {| fs := Some Tree.env; dir := Some "/repo";
          gitdir := Some "/repo/.git";
          filepath := Some (One "d"); force := true |}
     = Some (Threw {| error := ForeignError "TypeError: path is not a string";
                      caller := Some "git.add" |}, []).
Proof.
  intros H. split; [|split; [|repeat split]].
  - intros p Hin. pose proof (call_justified _ _ _ _ _ _ _ _ H Hin) as J.
    inversion J as [|cur p' Hfrom Hp Hj| | | | | | | |]; subst.
    destruct Hfrom as [pr ->]. eauto.
  - intros Hre.
    destruct (addToIndex_refused _ _ _ _ _ _ _ Hre H) as (t' & Ht & Hfc & _).
    eauto.
Qed.

Lemma directory_never_walked_witness :
  exists t', [] = snd (expandGlobs Tree.env ["d"]) ++ t'
             /\ forallb isFilterCall t' = true.
Proof.
  destruct (directory_never_walked Tree.env "/repo" true 1 ["d"]
              (Rejected (ForeignError "TypeError: path is not a string")) []
              eq_refl) as (_ & H & _).
  apply H. intros d r. exists "TypeError: path is not a string". reflexivity.
Defined.

(** C8, as the code has it.  The listing that expands a pattern is asked
    for the directory component of the pattern as it was written: the
    working-tree root is no argument of [expandGlobs].  For the root [/repo]
    and the pattern [sub/*.txt] the directory read is [sub], which is not
    [join('/repo', ...)] of anything. *)
Theorem glob_listing_not_rooted (E : Collaborators) (glob : string)
  (test : string -> bool) :
  JS.includes "*" glob = true ->
  RegExp E (globSource (globFile glob)) = Ok test ->
  snd (expandOne E glob) = [EvReaddir (globDirectory glob)]
  /\ expandGlobs Tree.env ["sub/*.txt"] = ([JPromise (Ok [])], [EvReaddir "sub"])
  /\ forall v p, join Tree.env (JStr "/repo") v = Ok p -> p <> "sub".
Proof.
  intros Hstar Hre. split; [|split].
  - unfold expandOne. rewrite Hstar, Hre.
    now destruct (readdir E (globDirectory glob)).
  - reflexivity.
  - intros [s|r] p; simpl; intros H; inversion H. discriminate.
Qed.

Lemma glob_listing_not_rooted_witness :
  snd (expandOne Tree.env "sub/*.txt") = [EvReaddir "sub"].
Proof.
  apply (glob_listing_not_rooted Tree.env "sub/*.txt"
           (Regex.matches [Regex.AnyStar; Regex.AnyChar; Regex.Lit "t";
                           Regex.Lit "x"; Regex.Lit "t"]));
    reflexivity.
Defined.

(** C9, as the code has it.  No call reports a NotFound error that names a
    path string, neither as its rejection nor inside an aggregate: a
    NotFound error carries the promise that [expandGlobs] made.  Staging
    [dev], which is neither file, directory nor symbolic link, is rejected
    by the failure of [join], not by a NotFound error naming [dev]. *)
Theorem other_kind_not_reported_not_found (E : Collaborators) (dir : string)
  (force : bool) (fuel : nat) (filepath : list string)
  (r : settled (list unit)) (t : list event) :
  addToIndex E dir force fuel filepath = Some (r, t) ->
  existsb namesString (failures r) = false
  /\ lstat Tree.env "/repo/dev" = Ok (Some Tree.device)
  /\ kind Tree.device = KOther
  /\ add Tree.dotGit 1
       {| fs := Some Tree.env; dir := Some "/repo";
          gitdir := Some "/repo/.git";
          filepath := Some (One "dev"); force := true |}
     = Some (Threw {| error := ForeignError "TypeError: path is not a string";
                      caller := Some "git.add" |}, []).
Proof.
  intros H. split; [|repeat split].
  apply existsb_none. intros e Hin.
  pose proof (addToIndex_failures_names _ _ _ _ _ _ _ H) as Hn.
  rewrite Forall_forall in Hn. specialize (Hn _ Hin).
  destruct e as [[s|pr]| | |]; try reflexivity.
  destruct (Hn (JStr s) eq_refl) as [pr Hpr]. discriminate Hpr.
Qed.

Lemma other_kind_not_reported_not_found_witness :
  existsb namesString
    (failures (Rejected (ForeignError "TypeError: path is not a string")
               : settled (list unit)))
  = false.
Proof.
  apply (other_kind_not_reported_not_found Tree.env "/repo" true 1 ["dev"]
           (Rejected (ForeignError "TypeError: path is not a string")) []).
  reflexivity.
Defined.

(** C10, as the code has it.  An error that rejects [add] has ['git.add']
    as its [caller] when it is thrown inside the [try]; the default of
    [gitdir] is evaluated before, so when the caller passes no [gitdir] and
    [join(dir, '.git')] throws, [add] is rejected with what [join] threw,
    without a [caller], before any argument is checked.  With a [join] that
    takes strings only, a call that passes neither [dir] nor [gitdir] is
    rejected in this way. *)
Theorem default_gitdir_throws_untagged (joinDotGit : option string -> res string)
  (fuel : nat) (args : addArgs) (err : thrown) (t : list event) :
  add joinDotGit fuel args = Some (Threw err, t) ->
  (caller err = Some "git.add"
   \/ (gitdir args = None /\ t = []
       /\ exists w, joinDotGit (dir args) = Throw w
                    /\ err = {| error := ForeignError w; caller := None |}))
  /\ add Tree.dotGit 1
       {| fs := Some Tree.env; dir := None; gitdir := None;
          filepath := Some (One "a.txt"); force := false |}
     = Some (Threw {| error := ForeignError "TypeError: path is not a string";
                      caller := None |}, []).
Proof.
  intros H. split; [|reflexivity].
  unfold add, gitdirParameter in H.
  destruct (gitdir args) as [g|] eqn:Hg.
  - left.
    match type of H with
    | match ?b with _ => _ end = _ => destruct b as [[[v|e] t']|]
    end; inversion H; reflexivity.
  - destruct (joinDotGit (dir args)) as [g|w] eqn:Hj.
    + left.
      match type of H with
      | match ?b with _ => _ end = _ => destruct b as [[[v|e] t']|]
      end; inversion H; reflexivity.
    + right. inversion H; subst. repeat split. exists w. split; reflexivity.
Qed.

Lemma default_gitdir_throws_untagged_witness :
  caller {| error := ForeignError "TypeError: path is not a string";
            caller := None |} = Some "git.add"
  \/ (gitdir {| fs := Some Tree.env; dir := None; gitdir := None;
                filepath := Some (One "a.txt"); force := false |} = None
      /\ @nil event = []
      /\ exists w,
           Tree.dotGit
             (dir {| fs := Some Tree.env; dir := None; gitdir := None;
                     filepath := Some (One "a.txt"); force := false |})
           = Throw w
           /\ {| error := ForeignError "TypeError: path is not a string";
                 caller := None |}
              = {| error := ForeignError w; caller := None |}).
Proof.
  refine (proj1 (default_gitdir_throws_untagged Tree.dotGit 1
                   {| fs := Some Tree.env; dir := None; gitdir := None;
                      filepath := Some (One "a.txt"); force := false |}
                   {| error := ForeignError "TypeError: path is not a string";
                      caller := None |} [] _)).
  reflexivity.
Defined.

(** * Further properties of the code *)

(** X1.  The regular expression that line 129 builds from a file pattern
    without other syntax characters accepts exactly the names that the
    pattern takes when [*] is read as any run of characters, [?] and [.]
    as any one character, none of them a line terminator, and every other
    character as itself, over the whole name. *)
Theorem compiled_pattern_meaning (pattern : string) :
  plainPattern pattern = true ->
  exists test,
    Regex.RegExp (globSource pattern) = Ok test
    /\ forall name,
         test name = true
         <-> GlobMatch (fun c => Ascii.eqb c "?" || Ascii.eqb c ".")
                       (fun a => negb (Regex.lineTerminator a)) pattern name.
Proof.
  intros H. destruct (RegExp_glob pattern H) as (test & Ht & Hsame).
  exists test. split; [exact Ht|]. intros name. rewrite Hsame.
  unfold codeGlobMatch. split; [apply wildcard_sound | apply wildcard_complete].
Qed.

Lemma compiled_pattern_meaning_witness :
  exists test,
    Regex.RegExp (globSource "*.t?t") = Ok test
    /\ forall name,
         test name = true
         <-> GlobMatch (fun c => Ascii.eqb c "?" || Ascii.eqb c ".")
                       (fun a => negb (Regex.lineTerminator a)) "*.t?t" name.
Proof. apply (compiled_pattern_meaning "*.t?t"). reflexivity. Defined.

(** X2.  For a file pattern without other syntax characters and a name
    without line terminators, the regular expression that line 129 builds
    keeps the name whenever the pattern matches it with every character
    other than [*] and [?] taken literally; when the pattern holds no dot it
    keeps the name in no other case. *)
Theorem compiled_pattern_vs_literal (pattern name : string) :
  plainPattern pattern = true ->
  noLineTerminator name = true ->
  exists test,
    Regex.RegExp (globSource pattern) = Ok test
    /\ (specGlobMatch pattern name = true -> test name = true)
    /\ (JS.includes "." pattern = false ->
        test name = specGlobMatch pattern name).
Proof.
  intros Hp Hn. destruct (RegExp_glob pattern Hp) as (test & Ht & Hsame).
  exists test. split; [exact Ht|]. rewrite Hsame. split.
  - now apply wildcard_weaker.
  - intros Hdot. now apply wildcard_same.
Qed.

Lemma compiled_pattern_vs_literal_witness :
  exists test,
    Regex.RegExp (globSource "*_test") = Ok test
    /\ (specGlobMatch "*_test" "a_test" = true -> test "a_test" = true)
    /\ (JS.includes "." "*_test" = false ->
        test "a_test" = specGlobMatch "*_test" "a_test").
Proof.
  apply (compiled_pattern_vs_literal "*_test" "a_test"); reflexivity.
Defined.

(** X3.  Lines 120-127 cut a pattern at its last slash and lose nothing:
    the file pattern holds no slash; a pattern with a slash is its
    directory, a slash and its file pattern; a pattern without one has the
    empty directory and is its own file pattern. *)
Theorem glob_cut_at_last_slash (glob : string) :
  JS.includes "/" (globFile glob) = false
  /\ (JS.includes "/" glob = true ->
      glob = (globDirectory glob ++ "/" ++ globFile glob)%string)
  /\ (JS.includes "/" glob = false ->
      globDirectory glob = EmptyString /\ globFile glob = glob).
Proof.
  assert (Hno : JS.includes "/" glob = false ->
                globDirectory glob = EmptyString /\ globFile glob = glob).
  { intros H. unfold globDirectory, globFile.
    rewrite (split_no_sep _ _ H). simpl. split; reflexivity. }
  split; [|split; [|exact Hno]].
  - destruct (JS.includes "/" glob) eqn:H.
    + destruct (last_slash glob H) as (d & f & -> & Hf).
      now rewrite (proj2 (glob_split d f Hf)).
    + now rewrite (proj2 (Hno eq_refl)).
  - intros H. destruct (last_slash glob H) as (d & f & Hg & Hf).
    rewrite Hg at 2 3. destruct (glob_split d f Hf) as [-> ->]. exact Hg.
Qed.

Lemma glob_cut_at_last_slash_witness :
  "a/b/c*.txt" = (globDirectory "a/b/c*.txt" ++ "/" ++ globFile "a/b/c*.txt")%string
  /\ globDirectory "c*.txt" = EmptyString /\ globFile "c*.txt" = "c*.txt".
Proof.
  destruct (glob_cut_at_last_slash "a/b/c*.txt") as (_ & H1 & _).
  destruct (glob_cut_at_last_slash "c*.txt") as (_ & _ & H2).
  split; [apply H1; reflexivity | apply H2; reflexivity].
Defined.

(** X4.  Expansion only ever lists directories: every call it makes is the
    listing of the directory of a requested path that holds a [*], at most
    one per such path; a request without any [*] reaches no collaborator
    and is handed on path by path. *)
Theorem expansion_only_lists (E : Collaborators) (filepath : list string) :
  Forall (fun ev => exists glob,
              In glob filepath /\ JS.includes "*" glob = true
              /\ ev = EvReaddir (globDirectory glob))
         (snd (expandGlobs E filepath))
  /\ List.length (snd (expandGlobs E filepath))
     <= List.length (filter (JS.includes "*") filepath)
  /\ (Forall (fun p => JS.includes "*" p = false) filepath ->
      expandGlobs E filepath = (map (fun p => JPromise (Ok [p])) filepath, [])).
Proof.
  split; [apply expandGlobs_lists|].
  unfold expandGlobs. simpl. rewrite reduce_concat, !map_map. simpl. split.
  - induction filepath as [|p fp IH]; simpl; [lia|].
    rewrite length_app.
    destruct (expandOne_calls E p) as [->|[Hs ->]]; simpl.
    + destruct (JS.includes "*" p); simpl; lia.
    + rewrite Hs. simpl. lia.
  - intros H. f_equal.
    + apply map_ext_in. intros p Hp. rewrite Forall_forall in H.
      now rewrite (expandOne_no_star E p (H p Hp)).
    + induction H as [|p fp Hp _ IH]; simpl; [reflexivity|].
      now rewrite (expandOne_no_star E p Hp), IH.
Qed.

Lemma expansion_only_lists_witness :
  expandGlobs Tree.env ["a.txt"; "dir/?.md"; "missing.txt"]
  = ([JPromise (Ok ["a.txt"]); JPromise (Ok ["dir/?.md"]);
      JPromise (Ok ["missing.txt"])], []).
Proof.
  destruct (expansion_only_lists Tree.env ["a.txt"; "dir/?.md"; "missing.txt"])
    as (_ & _ & H).
  apply H. repeat constructor.
Defined.

(** X5.  When the promise of a pattern is fulfilled, its paths are the
    entries of the listing that pass the test, in the order of the listing,
    each joined to the directory of the pattern: no entry is added, dropped
    or moved. *)
Theorem expansion_follows_listing (E : Collaborators) (glob : string)
  (ps : list string) (t : list event) :
  JS.includes "*" glob = true ->
  expandOne E glob = (Ok ps, t) ->
  exists test files,
    RegExp E (globSource (globFile glob)) = Ok test
    /\ readdir E (globDirectory glob) = Ok files
    /\ Forall2 (fun f p => join E (JStr (globDirectory glob)) (JStr f) = Ok p)
               (filter test files) ps.
Proof.
  intros Hs. unfold expandOne. rewrite Hs.
  destruct (RegExp E _) as [test|]; [|discriminate].
  destruct (readdir E _) as [files|]; [|discriminate].
  intros H. inversion H as [[Hj Ht]].
  exists test, files. repeat split. now apply joinAll_inv.
Qed.

Lemma expansion_follows_listing_witness :
  exists test files,
    RegExp Tree.env (globSource (globFile "dir/*.txt")) = Ok test
    /\ readdir Tree.env (globDirectory "dir/*.txt") = Ok files
    /\ Forall2 (fun f p => join Tree.env (JStr (globDirectory "dir/*.txt")) (JStr f) = Ok p)
               (filter test files) ["dir/a.txt"; "dir/b.txt"].
Proof.
  apply (expansion_follows_listing Tree.env "dir/*.txt"
           ["dir/a.txt"; "dir/b.txt"] [EvReaddir "dir"]); reflexivity.
Defined.

(** X6.  A call is fulfilled only when the task of every expanded path was
    fulfilled, and then with the empty array: the paths that were staged
    are not reported. *)
Theorem fulfilled_means_all_fulfilled (E : Collaborators) (dir : string)
  (force : bool) (rec : list string -> M (list unit))
  (expanded : list jsval) (v : list unit) (t : list event) :
  stageAll E dir force rec expanded = Some (Fulfilled v, t) ->
  v = []
  /\ Forall (fun cur => exists t',
                 stagePath E dir force rec cur = Some (Fulfilled tt, t'))
            expanded.
Proof.
  intros H. apply tasks_of in H. destruct H as (rts & HF & Hv & _).
  assert (Hr : reasons (map fst rts) = [] /\ v = []).
  { destruct (reasons (map fst rts)) as [|e1 [|e2 es]]; simpl in Hv;
      try discriminate. inversion Hv. auto. }
  destruct Hr as [Hr ->]. split; [reflexivity|].
  clear Hv. induction HF as [|cur [o t'] expanded rts Ht _ IH]; [constructor|].
  simpl in Hr. destruct o as [[]|e]; [|discriminate Hr].
  constructor; [exists t'; exact Ht | exact (IH Hr)].
Qed.

Lemma fulfilled_means_all_fulfilled_witness :
  Forall (fun cur => exists t',
              stagePath Tree.env "/repo" false (fun _ => None) cur
              = Some (Fulfilled tt, t'))
         [JStr "ignored.log"; JStr "a.txt"].
Proof.
  apply (fulfilled_means_all_fulfilled Tree.env "/repo" false (fun _ => None)
           [JStr "ignored.log"; JStr "a.txt"] []
           [EvIsIgnored (JStr "ignored.log"); EvIsIgnored (JStr "a.txt");
            EvLstat "/repo/a.txt"; EvRead "/repo/a.txt";
            EvWriteObject (list_byte_of_string "A");
            EvInsert (JStr "a.txt") Tree.file "blob A"]).
  reflexivity.
Defined.

(** X7.  The aggregate is flat.  When the coordinator rejects with a
    MultipleGitError it holds at least two errors, at most one per expanded
    path, and none of them is itself an aggregate: a directory hands up one
    error of one child, because each recursive call stages a single path
    and a call on a single path never rejects with an aggregate. *)
Theorem aggregate_is_flat (E : Collaborators) (dir : string) (force : bool)
  (n : nat) (expanded : list jsval) (es : list gitError) (t : list event) :
  stageAll E dir force (addToIndex E dir force n) expanded
  = Some (Rejected (MultipleGitError es), t) ->
  2 <= List.length es <= List.length expanded
  /\ forallb notMultiple es = true
  /\ forall p e' t',
       addToIndex E dir force n [p] = Some (Rejected e', t') ->
       notMultiple e' = true.
Proof.
  intros H.
  pose proof (stageAll_flat E dir force _ _ _ _
                (addToIndex_single E dir force n) H) as [Hl Hn].
  split; [exact Hl|]. split; [exact Hn|]. apply addToIndex_single.
Qed.

Lemma aggregate_is_flat_witness :
  2 <= List.length [NotFoundError (JStr "missing.txt"); NotFoundError (JStr "d/x")]
    <= List.length [JStr "missing.txt"; JStr "d/x"]
  /\ notMultiple (ForeignError "TypeError: path is not a string") = true.
Proof.
  destruct (aggregate_is_flat Tree.env "/repo" true 1
              [JStr "missing.txt"; JStr "d/x"]
              [NotFoundError (JStr "missing.txt"); NotFoundError (JStr "d/x")]
              [EvLstat "/repo/missing.txt";
               EvLstat "/repo/d/x"; EvRead "/repo/d/x"] eq_refl)
    as (H1 & _ & H3).
  split; [exact H1|].
  apply (H3 "missing.txt" _ []). reflexivity.
Defined.

(** X8.  Staging two batches in one call makes the calls that staging each
    of them makes, as often, in an order that depends on when the
    collaborators complete, and reports the failures of the first batch
    followed by those of the second. *)
Theorem batches_compose (E : Collaborators) (dir : string) (force : bool)
  (n : nat) (xs ys : list jsval) (r : settled (list unit)) (t : list event) :
  stageAll E dir force (addToIndex E dir force n) (xs ++ ys) = Some (r, t) ->
  exists r1 t1 r2 t2,
    stageAll E dir force (addToIndex E dir force n) xs = Some (r1, t1)
    /\ stageAll E dir force (addToIndex E dir force n) ys = Some (r2, t2)
    /\ Permutation t (t1 ++ t2)
    /\ failures r = failures r1 ++ failures r2.
Proof.
  intros H. apply tasks_of in H. destruct H as (rts & HF & -> & ->).
  apply Forall2_app_inv_l in HF.
  destruct HF as (rts1 & rts2 & HF1 & HF2 & ->).
  pose proof (addToIndex_single E dir force n) as Hs.
  destruct (tasks_single E dir force _ _ _ Hs HF1) as [Hn1 _].
  destruct (tasks_single E dir force _ _ _ Hs HF2) as [Hn2 _].
  exists (verdict (reasons (map fst rts1))),
         (interleave (schedule E (map snd rts1)) (map snd rts1)),
         (verdict (reasons (map fst rts2))),
         (interleave (schedule E (map snd rts2)) (map snd rts2)).
  split; [now apply stageAll_run|]. split; [now apply stageAll_run|]. split.
  - rewrite !interleave_perm, map_app, concat_app. reflexivity.
  - rewrite map_app, reasons_app, !failures_verdict; auto.
    rewrite forallb_app, Hn1, Hn2. reflexivity.
Qed.

Lemma batches_compose_witness :
  exists r1 t1 r2 t2,
    stageAll Tree.env "/repo" true (addToIndex Tree.env "/repo" true 1)
      [JStr "missing.txt"] = Some (r1, t1)
    /\ stageAll Tree.env "/repo" true (addToIndex Tree.env "/repo" true 1)
         [JStr "d/x"] = Some (r2, t2)
    /\ Permutation [EvLstat "/repo/missing.txt";
                    EvLstat "/repo/d/x"; EvRead "/repo/d/x"] (t1 ++ t2)
    /\ failures
         (Rejected (MultipleGitError [NotFoundError (JStr "missing.txt");
                                      NotFoundError (JStr "d/x")])
          : settled (list unit))
       = failures r1 ++ failures r2.
Proof.
  apply (batches_compose Tree.env "/repo" true 1
           [JStr "missing.txt"] [JStr "d/x"]).
  reflexivity.
Defined.

(** X9.  An index entry points at the content of its own path.  Whatever
    entry a run inserts, at any depth, its stats are what [lstat] returned
    for [join(dir, path)], they are not those of a directory, and its
    identifier is what the object writer returned for the bytes read at that
    very place: the link target in forward-slash form for a symbolic link,
    the file content otherwise. *)
Theorem entry_points_at_own_content (E : Collaborators) (dir : string)
  (force : bool) (n : nat) (expanded : list jsval)
  (r : settled (list unit)) (t : list event)
  (path : jsval) (stats : Stats) (oid : string) :
  stageAll E dir force (addToIndex E dir force n) expanded = Some (r, t) ->
  In (EvInsert path stats oid) t ->
  exists p,
    join E (JStr dir) path = Ok p
    /\ lstat E p = Ok (Some stats)
    /\ isDirectory stats = false
    /\ ((isSymbolicLink stats = true
         /\ exists target,
              readlink E p = Ok target
              /\ writeObject E (posixifyPathBuffer target) = Ok oid)
        \/ (isSymbolicLink stats = false
            /\ exists object,
                 read E p = Ok (Some object)
                 /\ writeObject E object = Ok oid)).
Proof.
  intros H Hin. pose proof (run_justified _ _ _ _ _ _ _ _ H Hin) as J.
  inversion J; subst; eexists; repeat split; eauto.
Qed.

Lemma entry_points_at_own_content_witness :
  exists p,
    join Tree.env (JStr "/repo") (JStr "link") = Ok p
    /\ lstat Tree.env p = Ok (Some Tree.symlink)
    /\ isDirectory Tree.symlink = false
    /\ ((isSymbolicLink Tree.symlink = true
         /\ exists target,
              readlink Tree.env p = Ok target
              /\ writeObject Tree.env (posixifyPathBuffer target)
                 = Ok "blob ../other.txt")
        \/ (isSymbolicLink Tree.symlink = false
            /\ exists object,
                 read Tree.env p = Ok (Some object)
                 /\ writeObject Tree.env object = Ok "blob ../other.txt")).
Proof.
  apply (entry_points_at_own_content Tree.env "/repo" true 1
           [JStr "link"] (Fulfilled [])
           [EvLstat "/repo/link"; EvReadlink "/repo/link";
            EvWriteObject (list_byte_of_string "../other.txt");
            EvInsert (JStr "link") Tree.symlink "blob ../other.txt"]).
  - reflexivity.
  - simpl. auto 10.
Defined.

(** X10.  Without [force] nothing is done for an ignored path at any depth:
    every path that is stat-ed, read or dereferenced is [join(dir, path)]
    of a path for which the filter answered no, and so is the path of every
    entry inserted. *)
Theorem ignored_paths_untouched (E : Collaborators) (dir : string) (n : nat)
  (expanded : list jsval) (r : settled (list unit)) (t : list event) :
  stageAll E dir false (addToIndex E dir false n) expanded = Some (r, t) ->
  (forall p, In (EvLstat p) t \/ In (EvRead p) t \/ In (EvReadlink p) t ->
             exists cur, join E (JStr dir) cur = Ok p
                         /\ isIgnored E cur = Ok false)
  /\ (forall path stats oid, In (EvInsert path stats oid) t ->
                             isIgnored E path = Ok false).
Proof.
  intros H. split.
  - intros p [Hin|[Hin|Hin]];
      pose proof (run_justified _ _ _ _ _ _ _ _ H Hin) as J;
      inversion J; subst; eauto.
  - intros path stats oid Hin.
    pose proof (run_justified _ _ _ _ _ _ _ _ H Hin) as J.
    inversion J; subst; auto.
Qed.

Lemma ignored_paths_untouched_witness :
  isIgnored Tree.env (JStr "a.txt") = Ok false.
Proof.
  destruct (ignored_paths_untouched Tree.env "/repo" 1
              [JStr "ignored.log"; JStr "a.txt"] (Fulfilled [])
              [EvIsIgnored (JStr "ignored.log"); EvIsIgnored (JStr "a.txt");
               EvLstat "/repo/a.txt"; EvRead "/repo/a.txt";
               EvWriteObject (list_byte_of_string "A");
               EvInsert (JStr "a.txt") Tree.file "blob A"] eq_refl)
    as [_ H].
  apply (H (JStr "a.txt") Tree.file "blob A"). simpl. auto 10.
Defined.


